(** * pyMSA scores: a shallow embedding of [pymsa/core/score.py]

    The module defines the abstract [Score] with its validating [compute],
    five column-wise metrics ([Entropy], [Star], [SumOfPairs],
    [PercentageOfNonGaps], [PercentageOfTotallyConservedColumns]) and the
    file-staging, tool-backed [Strike] score.

    Conventions of the embedding:
    - a Python [str] is a [string]; its symbols are read through [chars];
    - Python's unbounded [int] is [Z] (lengths and indices are [nat]);
    - Python's [float] is idealised as a real number ([R]): [/] is the
      real quotient guarded by its [ZeroDivisionError], [math.log] is [ln]
      guarded by its [ValueError];
    - a raised exception is the [Raise] branch of [result];
    - a [dict] (and a [Counter]) is an association list in insertion order,
      [set(column)] is a [gset];
    - [Strike] threads a [World] (files, directories, I/O trace); paths
      are built as [posixpath] builds them ([join], [normpath], [abspath]);
      the archive ([urlopen]), the [unicode_escape] codec and the external tool
      ([StrikeEx.run], of [pymsa.util.tool]) are parameters; the substitution
      matrix of [Star] and [SumOfPairs] is its [get_distance]. *)

From Stdlib Require Import Reals Lra ZArith Lia List String Ascii.
From stdpp Require Import base option list gmap strings.

Local Open Scope string_scope.
Local Open Scope list_scope.

(** ** Exceptions and the result monad *)

Inductive exn : Type :=
| IndexError
| ZeroDivisionError
| ValueError
| Exception (msg : string)
| URLError
| UnicodeDecodeError
| FileNotFoundError
| FileExistsError
| StrikeExError.

(** [raise Exception("All the sequences in the FASTA file must be aligned!")]
    is the error the specification calls AlignmentLengthMismatch. *)
Definition AlignmentLengthMismatch : exn :=
  Exception "All the sequences in the FASTA file must be aligned!".

(** [raise Exception("PDB not found in rcsb")] is the error the
    specification calls StructureNotFound. *)
Definition StructureNotFound : exn :=
  Exception "PDB not found in rcsb".

Inductive result (A : Type) : Type :=
| Ok (a : A)
| Raise (e : exn).
Arguments Ok {A} a.
Arguments Raise {A} e.

#[global] Instance result_ret : MRet result := fun _ a => Ok a.
#[global] Instance result_bind : MBind result := fun _ _ f m =>
  match m with
  | Ok a => f a
  | Raise e => Raise e
  end.
#[global] Instance result_fmap : FMap result := fun _ _ f m =>
  match m with
  | Ok a => Ok (f a)
  | Raise e => Raise e
  end.

(** [for x in xs: acc = body(x, acc)], stopping at the first exception. *)
Fixpoint for_each {A B : Type} (xs : list A) (body : A → B → result B)
    (acc : B) : result B :=
  match xs with
  | [] => Ok acc
  | x :: xs' => acc' ← body x acc; for_each xs' body acc'
  end.

(** ** Python primitives used by the metrics *)

(** The symbols of a [str], in order. *)
Definition chars (s : string) : list ascii := list_ascii_of_string s.

(** [len(s)] *)
Definition len (s : string) : nat := length (chars s).

(** [s[k]] for [0 <= k]: [IndexError] when out of range. *)
Definition str_index (s : string) (k : nat) : result ascii :=
  match chars s !! k with
  | Some c => Ok c
  | None => Raise IndexError
  end.

(** [xs[0]] on a list. *)
Definition list_first {A : Type} (xs : list A) : result A :=
  match xs with
  | x :: _ => Ok x
  | [] => Raise IndexError
  end.

(** [range(n)] *)
Definition range (n : nat) : list nat := seq 0 n.

(** [words.count(w)] *)
Definition list_count {A : Type} `{EqDecision A} (w : A) (words : list A) : nat :=
  length (filter (λ x, x = w) words).

(** [a / b] on two ints: true division. *)
Definition true_div (a b : Z) : result R :=
  if decide (b = 0%Z) then Raise ZeroDivisionError
  else Ok (IZR a / IZR b)%R.

(** [math.log(x)] *)
Definition math_log (x : R) : result R :=
  if Rlt_dec 0 x then Ok (ln x) else Raise ValueError.

(** ** The column loop shared by the per-column metrics

    [[
      for sequence in sequences:
          column.append(sequence[k])
    ]]
    with [column] empty on entry (it is cleared at the end of each turn). *)
Definition get_column (sequences : list string) (k : nat) : result (list ascii) :=
  mapM (λ sequence, str_index sequence k) sequences.

(** ** class Score *)

Module Score.

(** [all(len(sequence) == len(aligned_sequences[0]) for sequence in
    aligned_sequences)]: the generator evaluates [aligned_sequences[0]]
    once per element, so never on an empty list. *)
Fixpoint all_same_length (aligned_sequences rest : list string) : result bool :=
  match rest with
  | [] => Ok true
  | sequence :: rest' =>
      first ← list_first aligned_sequences;
      if decide (len sequence = len first)
      then all_same_length aligned_sequences rest'
      else Ok false
  end.

(** [Score.compute], over the [evaluate] of the concrete metric. *)
Definition compute {A : Type} (evaluate : list string → result A)
    (aligned_sequences : list string) : result A :=
  ok ← all_same_length aligned_sequences aligned_sequences;
  if negb ok then Raise AlignmentLengthMismatch
  else evaluate aligned_sequences.

(** [Score.get_score_of_two_chars]: [int(...)] of the matrix entry; the
    substitution matrix is the collaborator's integer-valued
    [get_distance]. *)
Definition get_score_of_two_chars (get_distance : ascii → ascii → Z)
    (char_a char_b : ascii) : Z :=
  get_distance char_a char_b.

End Score.

(** ** Python's insertion-ordered [dict] and [collections.Counter] *)

Section Dict.
Context {K V : Type} `{EqDecision K}.

(** An insertion-ordered dictionary: keys are pairwise distinct and appear
    in the order of their first insertion. *)
Definition dict : Type := list (K * V).

(** [d[k] = v]: an existing key keeps its position. *)
Fixpoint dict_set (k : K) (v : V) (d : dict) : dict :=
  match d with
  | [] => [(k, v)]
  | (k', v') :: d' =>
      if decide (k' = k) then (k', v) :: d' else (k', v') :: dict_set k v d'
  end.

(** [d.get(k, default)] *)
Fixpoint dict_get (k : K) (default : V) (d : dict) : V :=
  match d with
  | [] => default
  | (k', v') :: d' => if decide (k' = k) then v' else dict_get k default d'
  end.

(** [dict(pairs)] *)
Definition dict_of (pairs : list (K * V)) : dict :=
  fold_left (λ d kv, dict_set kv.1 kv.2 d) pairs [].
End Dict.
Arguments dict K V : clear implicits.

(** [Counter(iterable)]: [self[elem] = self.get(elem, 0) + 1] per element. *)
Definition Counter {K : Type} `{EqDecision K} (iterable : list K) : dict K nat :=
  fold_left (λ d elem, dict_set elem (dict_get elem 0 d + 1) d) iterable [].

(** [max(items, key=itemgetter(1))]: a later item replaces the running
    maximum only when its count is strictly greater. *)
Definition max_by_count {K : Type} (first : K * nat) (items : list (K * nat)) : K * nat :=
  fold_left (λ best item, if decide (best.2 < item.2)%nat then item else best)
    items first.

(** [counter.most_common(1)], that is [heapq.nlargest(1, counter.items(),
    key=itemgetter(1))]: the empty list for an empty counter, else the
    singleton of [max]. *)
Definition most_common_1 {K : Type} (counter : dict K nat) : list (K * nat) :=
  match counter with
  | [] => []
  | item :: items => [max_by_count item items]
  end.

(** [itertools.combinations(iterable, 2)], in the order it yields. *)
Fixpoint combinations_2 {A : Type} (iterable : list A) : list (A * A) :=
  match iterable with
  | [] => []
  | x :: xs => map (pair x) xs ++ combinations_2 xs
  end.

(** ** class Entropy *)

Module Entropy.

(** [[
      word_freq = [words.count(w) / len(words) for w in words]
      return dict(zip(words, word_freq))
    ]] *)
Definition get_words_frequencies (words : list ascii) : result (dict ascii R) :=
  word_freq ← mapM (λ w, true_div (Z.of_nat (list_count w words))
                                  (Z.of_nat (length words))) words;
  mret (dict_of (zip words word_freq)).

(** [[
      current_entropy = 0
      for key, value in column.items():
          current_entropy += value * math.log(value)
      return current_entropy
    ]] *)
Definition get_column_entropy (column : dict ascii R) : result R :=
  for_each column
    (λ '(key, value) current_entropy,
       l ← math_log value; mret (current_entropy + value * l)%R)
    0%R.

Definition evaluate (sequences : list string) : result R :=
  first ← list_first sequences;
  let length_of_sequence := len first in
  for_each (range length_of_sequence)
    (λ k final_score,
       column ← get_column sequences k;
       column_chars_and_frequencies ← get_words_frequencies column;
       e ← get_column_entropy column_chars_and_frequencies;
       mret (final_score + e)%R)
    0%R.

Definition is_minimization : bool := false.

End Entropy.

(** ** class Star *)

Module Star.
Section WithMatrix.
(** [self.substitution_matrix.get_distance] *)
Variable substitution_matrix : ascii → ascii → Z.

(** [[
      score_of_column = 0
      most_frequent_char = Counter(column).most_common(1)[0][0]
      for char in column:
          score_of_column += self.get_score_of_two_chars(
              self.substitution_matrix, most_frequent_char, char)
      return score_of_column
    ]] *)
Definition get_score_of_k_column (column : list ascii) : result Z :=
  top ← list_first (most_common_1 (Counter column));
  let most_frequent_char := top.1 in
  for_each column
    (λ char score_of_column,
       mret (score_of_column +
             Score.get_score_of_two_chars substitution_matrix
               most_frequent_char char)%Z)
    0%Z.

Definition evaluate (sequences : list string) : result Z :=
  first ← list_first sequences;
  let length_of_sequence := len first in
  for_each (range length_of_sequence)
    (λ k final_score,
       column ← get_column sequences k;
       s ← get_score_of_k_column column;
       mret (final_score + s)%Z)
    0%Z.

Definition is_minimization : bool := false.
End WithMatrix.
End Star.

(** ** class SumOfPairs *)

Module SumOfPairs.
Section WithMatrix.
Variable substitution_matrix : ascii → ascii → Z.

(** [itertools.combinations(column, 2)] *)
Definition possible_combinations (column : list ascii) : list (ascii * ascii) :=
  combinations_2 column.

(** [[
      score_of_column = 0
      for char_a, char_b in self.__possible_combinations(column):
          score_of_column += self.get_score_of_two_chars(
              self.substitution_matrix, char_a, char_b)
      return score_of_column
    ]] *)
Definition get_score_of_k_column (column : list ascii) : result Z :=
  for_each (possible_combinations column)
    (λ '(char_a, char_b) score_of_column,
       mret (score_of_column +
             Score.get_score_of_two_chars substitution_matrix char_a char_b)%Z)
    0%Z.

Definition evaluate (sequences : list string) : result Z :=
  first ← list_first sequences;
  let length_of_sequence := len first in
  for_each (range length_of_sequence)
    (λ k final_score,
       column ← get_column sequences k;
       s ← get_score_of_k_column column;
       mret (final_score + s)%Z)
    0%Z.

Definition is_minimization : bool := false.
End WithMatrix.
End SumOfPairs.

(** ** class PercentageOfNonGaps *)

Module PercentageOfNonGaps.

(** [sequence.count('-')] *)
Definition count_gaps (sequence : string) : Z :=
  Z.of_nat (list_count "-"%char (chars sequence)).

(** [[
      length_of_sequence = len(align_sequences[0])
      no_of_gaps = 0
      for sequence in align_sequences:
          no_of_gaps += sequence.count('-')
      return 100 - (no_of_gaps / (length_of_sequence * len(align_sequences)) * 100)
    ]] *)
Definition evaluate (align_sequences : list string) : result R :=
  first ← list_first align_sequences;
  let length_of_sequence := len first in
  no_of_gaps ← for_each align_sequences
    (λ sequence no_of_gaps, mret (no_of_gaps + count_gaps sequence)%Z) 0%Z;
  q ← true_div no_of_gaps
        (Z.of_nat length_of_sequence * Z.of_nat (length align_sequences));
  mret (100 - q * 100)%R.

Definition is_minimization : bool := true.

End PercentageOfNonGaps.

(** ** class PercentageOfTotallyConservedColumns *)

Module PercentageOfTotallyConservedColumns.

(** [len(set(column)) <= 1] *)
Definition is_conserved (column : list ascii) : bool :=
  bool_decide (size (list_to_set column : gset ascii) ≤ 1)%nat.

(** [[
      length_sequence = len(sequences[0])
      no_of_conserved_columns = 0
      for k in range(length_sequence):
          (column of k)
          if len(set(column)) <= 1:
              no_of_conserved_columns += 1
      return no_of_conserved_columns / length_sequence * 100
    ]] *)
Definition evaluate (sequences : list string) : result R :=
  first ← list_first sequences;
  let length_sequence := len first in
  no_of_conserved_columns ← for_each (range length_sequence)
    (λ k no_of_conserved_columns,
       column ← get_column sequences k;
       mret (if is_conserved column
             then (no_of_conserved_columns + 1)%Z
             else no_of_conserved_columns))
    0%Z;
  q ← true_div no_of_conserved_columns (Z.of_nat length_sequence);
  mret (q * 100)%R.

Definition is_minimization : bool := false.

End PercentageOfTotallyConservedColumns.

(** ** The world of [Strike]: a file system, the network and the tool

    Paths are compared as strings after they have been joined to the
    working directory; regular files are a finite map from path to text; [dirs]
    are the directories known to exist; [trace] records every I/O action
    in the order performed. *)

Inductive event : Type :=
| EvMakedirs (path : string)
| EvUrlopen (url : string)
| EvOpenW (path : string)
| EvWrite (path : string) (data : string)
| EvRun (exe connection alignment : string).

Record World : Type := mkWorld {
  files : gmap string string;
  dirs : gset string;
  trace : list event
}.

(** What [urllib.request.urlopen] does for a URL: a response carrying a
    body, an [HTTPError] (an error status such as 404), or a [URLError]
    that is not an [HTTPError] (no route, refused connection, ...). *)
Inductive response : Type :=
| Body (bytes : string)
| RaisesHTTPError
| RaisesURLError.

(** A computation that reads and updates the world; on [Raise] the world
    is the one reached when the exception was raised. *)
Definition IO (A : Type) : Type := World → result A * World.

#[global] Instance IO_ret : MRet IO := λ _ a w, (Ok a, w).
#[global] Instance IO_bind : MBind IO := λ _ _ f m w,
  match m w with
  | (Ok a, w') => f a w'
  | (Raise e, w') => (Raise e, w')
  end.

Definition io_raise {A : Type} (e : exn) : IO A := λ w, (Raise e, w).

Definition lift {A : Type} (r : result A) : IO A := λ w, (r, w).

Definition log (ev : event) : IO unit := λ w,
  (Ok (), mkWorld (files w) (dirs w) (trace w ++ [ev])).

Fixpoint io_for_each {A : Type} (xs : list A) (body : A → IO unit) : IO unit :=
  match xs with
  | [] => mret ()
  | x :: xs' => (body x : IO unit) ≫= λ _, io_for_each xs' body
  end.

(** [os.path.dirname]: what precedes the last ["/"]. *)
Fixpoint dirname_aux (p : string) : option string :=
  match p with
  | EmptyString => None
  | String c p' =>
      match dirname_aux p' with
      | Some d => Some (String c d)
      | None => if decide (c = "/"%char) then Some EmptyString else None
      end
  end.
Definition dirname (p : string) : string := default EmptyString (dirname_aux p).

Definition is_absolute (p : string) : bool :=
  match p with
  | String c _ => bool_decide (c = "/"%char)
  | EmptyString => false
  end.

(** [a.startswith(prefix)] *)
Fixpoint starts_with (prefix s : string) : bool :=
  match prefix, s with
  | EmptyString, _ => true
  | String a prefix', String b s' => bool_decide (a = b) && starts_with prefix' s'
  | String _ _, EmptyString => false
  end.

(** [a.endswith('/')] *)
Fixpoint ends_with_slash (a : string) : bool :=
  match a with
  | EmptyString => false
  | String c a' =>
      match a' with
      | EmptyString => bool_decide (c = "/"%char)
      | String _ _ => ends_with_slash a'
      end
  end.

(** [posixpath.join(a, b)]:
    [[
      if b.startswith('/'): path = b
      elif not path or path.endswith('/'): path += b
      else: path += '/' + b
    ]] *)
Definition os_path_join (a b : string) : string :=
  if is_absolute b then b
  else if bool_decide (a = EmptyString) || ends_with_slash a then a +:+ b
  else (a +:+ "/") +:+ b.

(** [path.split('/')] *)
Fixpoint split_slash (path : string) : list string :=
  match path with
  | EmptyString => [EmptyString]
  | String c path' =>
      if decide (c = "/"%char) then EmptyString :: split_slash path'
      else match split_slash path' with
           | comp :: comps => String c comp :: comps
           | [] => [String c EmptyString]
           end
  end.

(** ['/'.join(comps)] *)
Fixpoint join_slash (comps : list string) : string :=
  match comps with
  | [] => EmptyString
  | comp :: comps' =>
      match comps' with
      | [] => comp
      | _ :: _ => comp +:+ "/" +:+ join_slash comps'
      end
  end.

(** ['/' * n] *)
Fixpoint slashes (n : nat) : string :=
  match n with
  | O => EmptyString
  | S n' => String "/" (slashes n')
  end.

(** The count of leading slashes that [posixpath.normpath] keeps: two
    when there are exactly two, one otherwise. *)
Definition initial_slashes (path : string) : nat :=
  if starts_with "/" path
  then (if starts_with "//" path && negb (starts_with "///" path) then 2 else 1)
  else 0.

(** One turn of the loop of [posixpath.normpath]:
    [[
      if comp in ('', '.'): continue
      if (comp != '..' or (not initial_slashes and not new_comps) or
              (new_comps and new_comps[-1] == '..')):
          new_comps.append(comp)
      elif new_comps:
          new_comps.pop()
    ]] *)
Definition normpath_step (initial : nat) (new_comps : list string) (comp : string)
    : list string :=
  if bool_decide (comp = EmptyString ∨ comp = ".") then new_comps
  else if bool_decide (comp ≠ ".." ∨ (initial = 0%nat ∧ new_comps = [])
                       ∨ list.last new_comps = Some "..")
       then new_comps ++ [comp]
       else removelast new_comps.

(** [posixpath.normpath(path)] *)
Definition os_path_normpath (path : string) : string :=
  if bool_decide (path = EmptyString) then "."
  else
    let initial := initial_slashes path in
    let comps := fold_left (normpath_step initial) (split_slash path) [] in
    let path' := slashes initial +:+ join_slash comps in
    if bool_decide (path' = EmptyString) then "." else path'.

(** [xs[i]] on a list of strings. *)
Definition list_index (xs : list string) (i : nat) : result string :=
  match xs !! i with
  | Some x => Ok x
  | None => Raise IndexError
  end.

(** ** class Strike *)

Module Strike.

(** The instance attributes set by [__init__]. *)
Record t : Type := mk {
  out_connection_path : string;
  out_alignment_path : string;
  exe_path : string
}.

Section WithEnvironment.
(** The working directory of the process (it does not change). *)
Variable cwd : string.
(** [urllib.request.urlopen(Request(url))] *)
Variable urlopen : string → response.
(** [bytes.decode('unicode_escape')] *)
Variable decode_unicode_escape : string → result string.
(** [StrikeEx(exe).run(parameters={'-c': c, '-a': a})] of
    [pymsa.util.tool]: the score the external tool prints for the files
    it is pointed at, or its failure. *)
Variable StrikeEx_run : string → gmap string string → string → string → result R.

(** How the OS resolves a path: a relative path is taken from [cwd]. *)
Definition resolve (p : string) : string := os_path_join cwd p.

(** [os.path.abspath(p)]: [normpath(join(os.getcwd(), p))] (for an absolute
    [p] the join is [p]). *)
Definition os_path_abspath (p : string) : string :=
  os_path_normpath (os_path_join cwd p).

(** [Path(p).is_file()] *)
Definition is_file (p : string) : IO bool := λ w,
  (Ok (bool_decide (is_Some (files w !! resolve p))), w).

(** [os.makedirs(p, exist_ok=True)]: an existing directory is accepted,
    an existing regular file at [p] is a [FileExistsError]. *)
Definition os_makedirs (p : string) : IO unit := λ w,
  if decide (is_Some (files w !! p))
  then (Raise FileExistsError, w)
  else (Ok (), mkWorld (files w) ({[ p ]} ∪ dirs w) (trace w ++ [EvMakedirs p])).

(** [open(p, "w+")]: creates or truncates the file; fails when the
    directory of [p] does not exist. *)
Definition open_w (p : string) : IO unit := λ w,
  if decide (dirname (resolve p) ∈ dirs w)
  then (Ok (), mkWorld (<[resolve p := EmptyString]> (files w)) (dirs w)
                 (trace w ++ [EvOpenW (resolve p)]))
  else (Raise FileNotFoundError, w).

(** [file.write(data)] / [file.writelines(data)] on the file opened at
    [p]: appends; the text is on disk when the [with] block is left. *)
Definition write (p data : string) : IO unit := λ w,
  (Ok (), mkWorld (<[resolve p := default EmptyString (files w !! resolve p) +:+ data]> (files w))
            (dirs w) (trace w ++ [EvWrite (resolve p) data])).

(** [[
      try:
          req = urllib.request.Request(base_url)
          f = urllib.request.urlopen(req)
      except HTTPError:
          raise Exception("PDB not found in rcsb")
    ]] *)
Definition fetch (base_url : string) : IO string :=
  log (EvUrlopen base_url) ≫= λ _,
  match urlopen base_url with
  | Body bytes => mret bytes
  | RaisesHTTPError => io_raise StructureNotFound
  | RaisesURLError => io_raise URLError
  end.

(** [StrikeEx(exe).run(parameters={'-c': c, '-a': a})] *)
Definition run_tool (exe c a : string) : IO R :=
  λ w, (StrikeEx_run exe (files w) c a,
        mkWorld (files w) (dirs w) (trace w ++ [EvRun exe c a])).

(** [Strike.__init__] *)
Definition init (exe : string) : t :=
  {| out_connection_path := os_path_abspath "strike/in.con";
     out_alignment_path := os_path_abspath "strike/aln.fa";
     exe_path := os_path_abspath exe |}.

(** [Strike.get_pdb] *)
Definition get_pdb (pdb_id : string) : IO string :=
  let base_url := "https://files.rcsb.org/download/" +:+ (pdb_id +:+ ".pdb") in
  let out_pdb_path := "strike/" +:+ pdb_id +:+ ".pdb" in
  is_file out_pdb_path ≫= λ present : bool,
  (if negb present
   then fetch base_url ≫= λ f,
        open_w out_pdb_path ≫= λ _,
        lift (decode_unicode_escape f) ≫= λ text,
        write out_pdb_path text
   else mret ()) ≫= λ _,
  mret out_pdb_path.

(** The body of the [for i in range(len(align_sequences))] loop. *)
Definition stage_one (self : t) (align_sequences sequences_id chains : list string)
    (i : nat) : IO unit :=
  lift (list_index sequences_id i) ≫= λ id,
  get_pdb id ≫= λ _,
  lift (list_index chains i) ≫= λ chain,
  write (out_connection_path self)
    (id +:+ " " +:+ os_path_abspath "strike" +:+ "/" +:+ id +:+ ".pdb "
        +:+ chain +:+ String "010" EmptyString) ≫= λ _,
  lift (list_index align_sequences i) ≫= λ sequence,
  write (out_alignment_path self)
    (">" +:+ id +:+ String "010" EmptyString +:+ sequence
         +:+ String "010" EmptyString).

(** [Strike.evaluate] *)
Definition evaluate (self : t) (align_sequences sequences_id chains : list string)
    : IO R :=
  os_makedirs (os_path_abspath "strike") ≫= λ _,
  is_file (out_connection_path self) ≫= λ c_present : bool,
  (if c_present then mret false
   else is_file (out_alignment_path self) ≫= λ a_present : bool,
        mret (negb a_present)) ≫= λ neither : bool,
  (if neither
   then open_w (out_connection_path self) ≫= λ _,
        open_w (out_alignment_path self) ≫= λ _,
        io_for_each (range (length align_sequences))
          (stage_one self align_sequences sequences_id chains)
   else mret ()) ≫= λ _,
  run_tool (os_path_abspath (exe_path self))
    (out_connection_path self) (out_alignment_path self).

(** [Strike.compute]: no validation, straight to [evaluate]. *)
Definition compute (self : t) (aligned_sequences sequences_id chains : list string)
    : IO R :=
  evaluate self aligned_sequences sequences_id chains.

Definition is_minimization : bool := false.
End WithEnvironment.
End Strike.

(** ** Vocabulary of the statements *)

(** The common length [L] of an alignment: the length of its first row. *)
Definition alignment_length (sequences : list string) : nat :=
  match sequences with
  | [] => 0
  | first :: _ => len first
  end.

(** All rows have the length of the first one. *)
Definition equal_length (sequences : list string) : Prop :=
  Forall (λ s, len s = alignment_length sequences) sequences.

(** A valid alignment: a non-empty list of equal-length sequences. *)
Definition valid_alignment (sequences : list string) : Prop :=
  sequences ≠ [] ∧ equal_length sequences.

(** The symbol of row [s] at position [k]. *)
Definition symbol_at (k : nat) (s : string) : ascii :=
  default "000"%char (chars s !! k).

(** Column [k] of an alignment: one symbol per row, in row order. *)
Definition column (sequences : list string) (k : nat) : list ascii :=
  map (symbol_at k) sequences.

(** The distinct elements of a list, in order of first occurrence. *)
Fixpoint distinct {A : Type} `{EqDecision A} (l : list A) : list A :=
  match l with
  | [] => []
  | x :: l' => x :: filter (λ y, y ≠ x) (distinct l')
  end.

Definition sumR (l : list R) : R := foldr Rplus 0%R l.
Definition sumZ (l : list Z) : Z := foldr Z.add 0%Z l.

(** The empirical frequency of [c] in a column:
    [occurrences / column size]. *)
Definition frequency (col : list ascii) (c : ascii) : R :=
  (IZR (Z.of_nat (list_count c col)) / IZR (Z.of_nat (length col)))%R.

(** Entropy summed once per distinct symbol of each column. *)
Definition entropy_per_distinct_symbol (sequences : list string) : R :=
  sumR (map (λ k,
          let col := column sequences k in
          sumR (map (λ c, frequency col c * ln (frequency col c))%R (distinct col)))
        (range (alignment_length sequences))).

(** Entropy summed once per symbol occurrence of each column: a symbol
    occurring [m] times among [n] rows is counted [m] times. *)
Definition entropy_per_occurrence (sequences : list string) : R :=
  sumR (map (λ k,
          let col := column sequences k in
          sumR (map (λ c, frequency col c * ln (frequency col c))%R col))
        (range (alignment_length sequences))).

(** [m] is the majority symbol of a column: it occurs in it, no symbol
    occurs more often, and every symbol that first occurs before [m]
    occurs strictly less often (ties go to the earliest first occurrence). *)
Definition is_majority (col : list ascii) (m : ascii) : Prop :=
  (∀ c, c ∈ col → list_count c col ≤ list_count m col)%nat ∧
  ∃ before after, col = before ++ m :: after ∧ (m ∉ before) ∧
    (∀ c, c ∈ before → (list_count c col < list_count m col)%nat).

(** The pairs of positions [(i, j)] with [i < j < n]. *)
Definition index_pairs (n : nat) : list (nat * nat) :=
  flat_map (λ i, map (pair i) (seq (S i) (n - S i))) (seq 0 n).

(** The symbols of a column at a pair of positions. *)
Definition symbols_at (col : list ascii) (ij : nat * nat) : ascii * ascii :=
  (default "000"%char (col !! ij.1), default "000"%char (col !! ij.2)).

(** Every row of the alignment is the same sequence. *)
Definition fully_conserved (sequences : list string) : Prop :=
  ∀ s s', s ∈ sequences → s' ∈ sequences → s = s'.

(** The number of gap symbols over all positions of all rows. *)
Definition total_gaps (sequences : list string) : Z :=
  Z.of_nat (list_count "-"%char (concat (map chars sequences))).

(** The number of columns whose set of distinct symbols has size [≤ 1]. *)
Definition conserved_columns (sequences : list string) : Z :=
  Z.of_nat (length (filter
    (λ k, size (list_to_set (column sequences k) : gset ascii) ≤ 1)%nat
    (range (alignment_length sequences)))).

(** A sequence of [compute] calls on one [Strike] instance, run one after
    the other; the results are dropped, the world is threaded. *)
Definition Strike_calls (cwd : string) (urlopen : string → response)
    (decode_unicode_escape : string → result string)
    (StrikeEx_run : string → gmap string string → string → string → result R)
    (self : Strike.t)
    (calls : list (list string * list string * list string)) (w : World) : World :=
  fold_left (λ w '(aligned_sequences, sequences_id, chains),
      (Strike.compute cwd urlopen decode_unicode_escape StrikeEx_run self
         aligned_sequences sequences_id chains w).2)
    calls w.

(** A concrete environment for the examples: the archive serves the
    entry [1abc], answers 404 for [0000] and is unreachable otherwise;
    decoding is transparent; the tool prints [0]. *)
Definition example_cwd : string := "/home/u".
Definition example_urlopen (url : string) : response :=
  if decide (url = "https://files.rcsb.org/download/1abc.pdb") then Body "ATOM"
  else if decide (url = "https://files.rcsb.org/download/0000.pdb") then RaisesHTTPError
  else RaisesURLError.
Definition example_decode (bytes : string) : result string := Ok bytes.
Definition example_tool (exe : string) (fs : gmap string string) (c a : string)
    : result R := Ok 0%R.
Definition example_strike : Strike.t := Strike.init example_cwd "/usr/local/bin/strike".

(** A world with nothing in it, and one with only the staging directory. *)
Definition empty_world : World := mkWorld ∅ ∅ [].
Definition fresh_world : World := mkWorld ∅ {[ "/home/u/strike" ]} [].

(** The events a [compute] call records when it skips the staging: the
    directory creation and the tool run, nothing else. *)
Definition skip_events (cwd : string) (self : Strike.t) : list event :=
  [EvMakedirs (Strike.os_path_abspath cwd "strike");
   EvRun (Strike.os_path_abspath cwd (Strike.exe_path self))
     (Strike.out_connection_path self) (Strike.out_alignment_path self)].

(** The outcome of a [compute] call that skips the staging: the tool's
    answer on the files as they are, which are left untouched. *)
Definition skip_outcome (cwd : string)
    (StrikeEx_run : string → gmap string string → string → string → result R)
    (self : Strike.t) (w : World) : result R * World :=
  (StrikeEx_run (Strike.os_path_abspath cwd (Strike.exe_path self)) (files w)
     (Strike.out_connection_path self) (Strike.out_alignment_path self),
   mkWorld (files w) ({[ Strike.os_path_abspath cwd "strike" ]} ∪ dirs w)
     (trace w ++ skip_events cwd self)).

(** The archive URL and the local path of a structure file. *)
Definition pdb_url (pdb_id : string) : string :=
  "https://files.rcsb.org/download/" +:+ pdb_id +:+ ".pdb".
Definition pdb_path (pdb_id : string) : string :=
  "strike/" +:+ pdb_id +:+ ".pdb".

(** A world in which both staging files are already there. *)
Definition staged_world : World :=
  mkWorld {[ "/home/u/strike/in.con" := "1abc /home/u/strike/1abc.pdb A";
             "/home/u/strike/aln.fa" := ">1abc" ]}
          {[ "/home/u/strike" ]} [].

(** A string with a ["/"] in it. *)
Fixpoint has_slash (s : string) : bool :=
  match s with
  | EmptyString => false
  | String c s' => bool_decide (c = "/"%char) || has_slash s'
  end.

(** A path component that [normpath] keeps: not empty, not ["."], not
    [".."], and without separator. *)
Definition plain_component (comp : string) : Prop :=
  comp ≠ EmptyString ∧ comp ≠ "." ∧ comp ≠ ".." ∧ has_slash comp = false.

(** What [os.path.join] puts before a relative path: the directory, with
    a separator unless it is empty or ends with one. *)
Definition dir_prefix (a : string) : string :=
  if bool_decide (a = EmptyString) || ends_with_slash a then a else a +:+ "/".

(** A property of the world that a computation keeps. *)
Definition preserves {A : Type} (P : World → Prop) (m : IO A) : Prop :=
  ∀ w, P w → P (m w).2.

(** The text of a file written line after line. *)
Definition text_of (lines : list string) : string :=
  fold_left (λ text line, text +:+ line) lines EmptyString.

(** Line [i] of the connectivity file: [<id> <abs. path of the structure
    file> <chain>]. *)
Definition connection_line (cwd : string) (sequences_id chains : list string)
    (i : nat) : string :=
  default EmptyString (sequences_id !! i) +:+ " "
    +:+ Strike.os_path_abspath cwd "strike" +:+ "/"
    +:+ default EmptyString (sequences_id !! i) +:+ ".pdb "
    +:+ default EmptyString (chains !! i) +:+ String "010" EmptyString.

(** Record [i] of the alignment file, in FASTA format. *)
Definition fasta_record (align_sequences sequences_id : list string) (i : nat)
    : string :=
  ">" +:+ default EmptyString (sequences_id !! i) +:+ String "010" EmptyString
    +:+ default EmptyString (align_sequences !! i) +:+ String "010" EmptyString.

(** The number of tool runs recorded in a world. *)
Definition is_run (ev : event) : bool :=
  match ev with
  | EvRun _ _ _ => true
  | _ => false
  end.
Definition tool_runs (w : World) : nat := length (List.filter is_run (trace w)).

(** What holds of a world reached from [w0] while staging: the files of [w0]
    are all still there with their content, the directories are [D], and
    the tool has run [n] times. *)
Definition staging_invariant (w0 : World) (D : gset string) (n : nat)
    (w : World) : Prop :=
  files w0 ⊆ files w ∧ dirs w = D ∧ tool_runs w = n.

(** A codec that rejects every body. *)
Definition example_failing_decode (bytes : string) : result string :=
  Raise UnicodeDecodeError.

(** ** The result monad and the loops *)

Lemma sumZ_cons (x : Z) (l : list Z) : sumZ (x :: l) = (x + sumZ l)%Z.
Proof. reflexivity. Qed.

Lemma sumR_cons (x : R) (l : list R) : sumR (x :: l) = (x + sumR l)%R.
Proof. reflexivity. Qed.

Lemma bind_Ok {A B : Type} (f : A → result B) (a : A) : (Ok a ≫= f) = f a.
Proof. reflexivity. Qed.

Lemma list_first_cons {A : Type} (x : A) (l : list A) : list_first (x :: l) = Ok x.
Proof. reflexivity. Qed.

Lemma mapM_Ok {A B : Type} (f : A → result B) (g : A → B) (l : list A) :
  (∀ x, x ∈ l → f x = Ok (g x)) → mapM f l = Ok (map g l).
Proof.
  induction l as [|x l IH]; intros Hf; [reflexivity|].
  cbn. rewrite (Hf x) by left. cbn.
  rewrite IH; [reflexivity|]. intros y Hy. apply Hf. by right.
Qed.

Lemma for_each_sumZ {A : Type} (xs : list A) (body : A → Z → result Z)
    (f : A → Z) (acc : Z) :
  (∀ x a, x ∈ xs → body x a = Ok (a + f x)%Z) →
  for_each xs body acc = Ok (acc + sumZ (map f xs))%Z.
Proof.
  revert acc. induction xs as [|x xs IH]; intros acc Hb; cbn.
  - f_equal. lia.
  - rewrite Hb by left. cbn. rewrite IH.
    + f_equal. unfold sumZ. lia.
    + intros y a Hy. apply Hb. by right.
Qed.

Lemma for_each_sumR {A : Type} (xs : list A) (body : A → R → result R)
    (f : A → R) (acc : R) :
  (∀ x a, x ∈ xs → body x a = Ok (a + f x)%R) →
  for_each xs body acc = Ok (acc + sumR (map f xs))%R.
Proof.
  revert acc. induction xs as [|x xs IH]; intros acc Hb; cbn.
  - f_equal. lra.
  - rewrite Hb by left. cbn. rewrite IH.
    + f_equal. unfold sumR. lra.
    + intros y a Hy. apply Hb. by right.
Qed.

(** ** Columns of a valid alignment *)

Lemma str_index_Ok (s : string) (k : nat) :
  (k < len s)%nat → str_index s k = Ok (symbol_at k s).
Proof.
  intros Hk. unfold str_index, symbol_at.
  destruct (chars s !! k) eqn:E; [reflexivity|].
  apply lookup_ge_None in E. unfold len in Hk. lia.
Qed.

Lemma get_column_Ok (sequences : list string) (k : nat) :
  equal_length sequences → (k < alignment_length sequences)%nat →
  get_column sequences k = Ok (column sequences k).
Proof.
  intros Heq Hk. unfold get_column, column. apply mapM_Ok.
  intros s Hs. apply str_index_Ok.
  unfold equal_length in Heq. rewrite Forall_forall in Heq.
  rewrite (Heq s Hs). exact Hk.
Qed.

Lemma length_column (sequences : list string) (k : nat) :
  length (column sequences k) = length sequences.
Proof. unfold column. apply length_map. Qed.

Lemma elem_of_range (n k : nat) : k ∈ range n ↔ (k < n)%nat.
Proof. unfold range. rewrite elem_of_seq. lia. Qed.

(** ** [Score.compute]: the validation *)

Lemma all_same_length_true (first : string) (l rest : list string) :
  Forall (λ s, len s = len first) rest →
  Score.all_same_length (first :: l) rest = Ok true.
Proof.
  induction 1 as [|s rest Hs _ IH]; [reflexivity|].
  cbn. rewrite decide_True by exact Hs. exact IH.
Qed.

Lemma all_same_length_false (first : string) (l rest : list string) :
  ¬ Forall (λ s, len s = len first) rest →
  Score.all_same_length (first :: l) rest = Ok false.
Proof.
  induction rest as [|s rest IH]; intros Hn.
  - exfalso. apply Hn. constructor.
  - cbn. destruct (decide (len s = len first)) as [Hs|Hs]; [|reflexivity].
    apply IH. intros HF. apply Hn. by constructor.
Qed.

Lemma compute_valid {A : Type} (evaluate : list string → result A)
    (sequences : list string) :
  equal_length sequences → Score.compute evaluate sequences = evaluate sequences.
Proof.
  intros Heq. unfold Score.compute. destruct sequences as [|first l].
  - reflexivity.
  - rewrite all_same_length_true by exact Heq. reflexivity.
Qed.

Lemma compute_mismatch {A : Type} (evaluate : list string → result A)
    (sequences : list string) :
  ¬ equal_length sequences →
  Score.compute evaluate sequences = Raise AlignmentLengthMismatch.
Proof.
  intros Hn. unfold Score.compute. destruct sequences as [|first l].
  - exfalso. apply Hn. constructor.
  - rewrite all_same_length_false by exact Hn. reflexivity.
Qed.

(** C2 (as amended): for the five metrics derived from [Score] (Entropy,
    Star, SumOfPairs, PercentageOfNonGaps,
    PercentageOfTotallyConservedColumns), [compute] on a non-empty list of
    sequences of unequal length raises AlignmentLengthMismatch whatever
    [evaluate] is, hence before any evaluation; [Strike.compute] performs no
    length validation and is [Strike.evaluate]. *)
Theorem compute_unequal_length_raises (sequences : list string) :
  sequences ≠ [] → ¬ equal_length sequences →
  (∀ (A : Type) (evaluate : list string → result A),
      Score.compute evaluate sequences = Raise AlignmentLengthMismatch) ∧
  Score.compute Entropy.evaluate sequences = Raise AlignmentLengthMismatch ∧
  (∀ m, Score.compute (Star.evaluate m) sequences = Raise AlignmentLengthMismatch) ∧
  (∀ m, Score.compute (SumOfPairs.evaluate m) sequences = Raise AlignmentLengthMismatch) ∧
  Score.compute PercentageOfNonGaps.evaluate sequences = Raise AlignmentLengthMismatch ∧
  Score.compute PercentageOfTotallyConservedColumns.evaluate sequences
    = Raise AlignmentLengthMismatch ∧
  (∀ cwd urlopen decode tool self sequences_id chains w,
      Strike.compute cwd urlopen decode tool self sequences sequences_id chains w
      = Strike.evaluate cwd urlopen decode tool self sequences sequences_id chains w).
Proof.
  intros _ Hne.
  repeat split; intros; try apply compute_mismatch; done.
Qed.

Lemma compute_unequal_length_raises_witness :
  ["AC"; "A"] ≠ [] ∧ ¬ equal_length ["AC"; "A"] ∧
  Score.compute Entropy.evaluate ["AC"; "A"] = Raise AlignmentLengthMismatch.
Proof.
  assert (Hne : ["AC"; "A"] ≠ []) by discriminate.
  assert (Hlen : ¬ equal_length ["AC"; "A"]).
  { intros H. apply Forall_cons in H as [_ H]. apply Forall_cons in H as [H _].
    vm_compute in H. discriminate. }
  split; [exact Hne|]. split; [exact Hlen|].
  exact (proj1 (proj2 (compute_unequal_length_raises ["AC"; "A"] Hne Hlen))).
Defined.

(** C2 (counterexample): [Strike.compute] on the unequal-length sequences
    ["AC"] and ["A"] stages its files, runs the tool and returns its score;
    it does not raise AlignmentLengthMismatch. *)
Lemma Strike_compute_does_not_validate :
  let r := (Strike.compute example_cwd example_urlopen example_decode example_tool
              example_strike ["AC"; "A"] ["1abc"; "1abc"] ["A"; "B"] empty_world).1 in
  ["AC"; "A"] ≠ [] ∧ ¬ equal_length ["AC"; "A"] ∧
  r = Ok 0%R ∧ r ≠ Raise AlignmentLengthMismatch.
Proof.
  assert (E : (Strike.compute example_cwd example_urlopen example_decode example_tool
              example_strike ["AC"; "A"] ["1abc"; "1abc"] ["A"; "B"] empty_world).1
              = Ok 0%R) by (vm_compute; reflexivity).
  cbv zeta. rewrite E. split; [discriminate|]. split; [|split; [reflexivity|discriminate]].
  intros H. apply Forall_cons in H as [_ H]. apply Forall_cons in H as [H _].
  vm_compute in H. discriminate.
Qed.

(** C9: on the empty list the equal-length check holds vacuously, so
    [compute] raises no AlignmentLengthMismatch; each of the five metrics
    then fails in [evaluate] on [sequences[0]] with an IndexError. *)
Theorem compute_empty_list_raises_IndexError :
  Score.all_same_length [] [] = Ok true ∧
  Score.compute Entropy.evaluate [] = Raise IndexError ∧
  (∀ m, Score.compute (Star.evaluate m) [] = Raise IndexError) ∧
  (∀ m, Score.compute (SumOfPairs.evaluate m) [] = Raise IndexError) ∧
  Score.compute PercentageOfNonGaps.evaluate [] = Raise IndexError ∧
  Score.compute PercentageOfTotallyConservedColumns.evaluate [] = Raise IndexError ∧
  Raise IndexError ≠ @Raise R AlignmentLengthMismatch.
Proof. repeat split; discriminate. Qed.

(** C10: equal length alone does not make evaluation total: on a non-empty
    list of empty sequences the validation passes and both
    [PercentageOfNonGaps.evaluate] and
    [PercentageOfTotallyConservedColumns.evaluate] raise ZeroDivisionError. *)
Theorem percentages_divide_by_zero_on_empty_sequences (sequences : list string) :
  sequences ≠ [] → Forall (λ s, s = EmptyString) sequences →
  valid_alignment sequences ∧
  PercentageOfNonGaps.evaluate sequences = Raise ZeroDivisionError ∧
  PercentageOfTotallyConservedColumns.evaluate sequences = Raise ZeroDivisionError ∧
  Score.compute PercentageOfNonGaps.evaluate sequences = Raise ZeroDivisionError ∧
  Score.compute PercentageOfTotallyConservedColumns.evaluate sequences
    = Raise ZeroDivisionError.
Proof.
  intros Hne Hall.
  destruct sequences as [|first l]; [done|].
  pose proof (Forall_inv Hall) as ->.
  assert (Heq : equal_length (EmptyString :: l)).
  { unfold equal_length. eapply Forall_impl; [exact Hall|].
    intros s ->. reflexivity. }
  assert (E1 : PercentageOfNonGaps.evaluate (EmptyString :: l) = Raise ZeroDivisionError).
  { unfold PercentageOfNonGaps.evaluate. rewrite list_first_cons, bind_Ok.
    rewrite (for_each_sumZ _ _ PercentageOfNonGaps.count_gaps) by done.
    rewrite bind_Ok. reflexivity. }
  assert (E2 : PercentageOfTotallyConservedColumns.evaluate (EmptyString :: l)
               = Raise ZeroDivisionError) by reflexivity.
  rewrite !compute_valid by exact Heq. done.
Qed.

Lemma percentages_divide_by_zero_on_empty_sequences_witness :
  [EmptyString; EmptyString] ≠ [] ∧
  Forall (λ s, s = EmptyString) [EmptyString; EmptyString] ∧
  PercentageOfNonGaps.evaluate [EmptyString; EmptyString] = Raise ZeroDivisionError ∧
  PercentageOfTotallyConservedColumns.evaluate [EmptyString; EmptyString]
  = Raise ZeroDivisionError.
Proof.
  assert (Hne : [EmptyString; EmptyString] ≠ []) by discriminate.
  assert (Hall : Forall (λ s, s = EmptyString) [EmptyString; EmptyString])
    by (repeat constructor).
  split; [exact Hne|]. split; [exact Hall|].
  destruct (percentages_divide_by_zero_on_empty_sequences _ Hne Hall)
    as (_ & E1 & E2 & _).
  exact (conj E1 E2).
Defined.

(** ** Counting *)

Lemma list_count_nil {A : Type} `{EqDecision A} (w : A) : list_count w [] = 0%nat.
Proof. reflexivity. Qed.

Lemma list_count_cons {A : Type} `{EqDecision A} (w x : A) (l : list A) :
  list_count w (x :: l) = ((if decide (x = w) then 1 else 0) + list_count w l)%nat.
Proof.
  unfold list_count. rewrite filter_cons. destruct (decide (x = w)); reflexivity.
Qed.

Lemma list_count_app {A : Type} `{EqDecision A} (w : A) (l1 l2 : list A) :
  list_count w (l1 ++ l2) = (list_count w l1 + list_count w l2)%nat.
Proof. unfold list_count. rewrite filter_app, length_app. reflexivity. Qed.

Lemma list_count_all {A : Type} `{EqDecision A} (w : A) (l : list A) :
  (∀ x, x ∈ l → x = w) → list_count w l = length l.
Proof.
  induction l as [|x l IH]; intros Hall; [reflexivity|].
  rewrite list_count_cons, decide_True by (apply Hall; left).
  cbn. f_equal. apply IH. intros y Hy. apply Hall. by right.
Qed.

Lemma list_count_absent {A : Type} `{EqDecision A} (w : A) (l : list A) :
  w ∉ l → list_count w l = 0%nat.
Proof.
  induction l as [|x l IH]; intros Hn; [reflexivity|].
  rewrite list_count_cons, decide_False.
  - apply IH. intros Hin. apply Hn. by right.
  - intros ->. apply Hn. left.
Qed.

Lemma list_count_pos {A : Type} `{EqDecision A} (w : A) (l : list A) :
  w ∈ l → (0 < list_count w l)%nat.
Proof.
  induction l as [|x l IH]; intros Hin.
  - by apply not_elem_of_nil in Hin.
  - rewrite list_count_cons. destruct (decide (x = w)); [lia|].
    apply elem_of_cons in Hin as [->|Hin]; [done|]. specialize (IH Hin). lia.
Qed.

Lemma sumZ_map_const {A : Type} (f : A → Z) (c : Z) (l : list A) :
  (∀ x, x ∈ l → f x = c) → sumZ (map f l) = (Z.of_nat (length l) * c)%Z.
Proof.
  induction l as [|x l IH]; intros Hc; [reflexivity|].
  cbn [map length]. rewrite sumZ_cons, IH, Hc.
  - lia.
  - left.
  - intros y Hy. apply Hc. by right.
Qed.

Lemma sumZ_indicator {A : Type} (P : A → Prop) `{∀ x, Decision (P x)} (l : list A) :
  sumZ (map (λ x, if decide (P x) then 1%Z else 0%Z) l)
  = Z.of_nat (length (filter P l)).
Proof.
  induction l as [|x l IH]; [reflexivity|].
  cbn [map]. rewrite sumZ_cons, IH, filter_cons.
  destruct (decide (P x)); cbn [length]; lia.
Qed.

(** ** PercentageOfNonGaps *)

Lemma sum_count_gaps (sequences : list string) :
  sumZ (map PercentageOfNonGaps.count_gaps sequences) = total_gaps sequences.
Proof.
  unfold total_gaps. induction sequences as [|s l IH]; [reflexivity|].
  cbn [map concat]. rewrite sumZ_cons, IH, list_count_app.
  unfold PercentageOfNonGaps.count_gaps. lia.
Qed.

Lemma PercentageOfNonGaps_evaluate_formula (sequences : list string) :
  sequences ≠ [] → (0 < alignment_length sequences)%nat →
  PercentageOfNonGaps.evaluate sequences
  = Ok (100 - IZR (total_gaps sequences)
               / IZR (Z.of_nat (alignment_length sequences)
                      * Z.of_nat (length sequences)) * 100)%R.
Proof.
  intros Hne HL. destruct sequences as [|first l]; [done|].
  unfold PercentageOfNonGaps.evaluate.
  rewrite list_first_cons, bind_Ok.
  rewrite (for_each_sumZ _ _ PercentageOfNonGaps.count_gaps) by done.
  rewrite bind_Ok, Z.add_0_l, sum_count_gaps.
  unfold true_div. rewrite decide_False.
  - reflexivity.
  - cbn [alignment_length length] in *. lia.
Qed.

Lemma total_gaps_none (sequences : list string) :
  (∀ s, s ∈ sequences → "-"%char ∉ chars s) → total_gaps sequences = 0%Z.
Proof.
  intros Hno. rewrite <- sum_count_gaps.
  rewrite (sumZ_map_const _ 0%Z); [lia|].
  intros s Hs. unfold PercentageOfNonGaps.count_gaps.
  rewrite list_count_absent by (by apply Hno). reflexivity.
Qed.

Lemma total_gaps_all (sequences : list string) :
  equal_length sequences →
  (∀ s c, s ∈ sequences → c ∈ chars s → c = "-"%char) →
  total_gaps sequences
  = (Z.of_nat (alignment_length sequences) * Z.of_nat (length sequences))%Z.
Proof.
  intros Heq Hall. rewrite <- sum_count_gaps.
  rewrite (sumZ_map_const _ (Z.of_nat (alignment_length sequences))); [lia|].
  intros s Hs. unfold PercentageOfNonGaps.count_gaps. f_equal.
  rewrite list_count_all by (intros c; by apply Hall).
  unfold equal_length in Heq. rewrite Forall_forall in Heq. exact (Heq s Hs).
Qed.

(** C5: on a non-empty alignment of non-empty equal-length sequences,
    [PercentageOfNonGaps.evaluate] returns
    [100 - (totalGaps / (sequenceLength * numberOfSequences) * 100)] with
    [totalGaps] the number of ['-'] over all positions of all sequences; it
    returns exactly 100 when no sequence has a gap and exactly 0 when every
    symbol is a gap; [is_minimization()] is [True]. *)
Theorem PercentageOfNonGaps_evaluate_spec (sequences : list string) :
  valid_alignment sequences → (0 < alignment_length sequences)%nat →
  PercentageOfNonGaps.evaluate sequences
  = Ok (100 - IZR (total_gaps sequences)
               / IZR (Z.of_nat (alignment_length sequences)
                      * Z.of_nat (length sequences)) * 100)%R ∧
  ((∀ s, s ∈ sequences → "-"%char ∉ chars s) →
   PercentageOfNonGaps.evaluate sequences = Ok 100%R) ∧
  ((∀ s c, s ∈ sequences → c ∈ chars s → c = "-"%char) →
   PercentageOfNonGaps.evaluate sequences = Ok 0%R) ∧
  PercentageOfNonGaps.is_minimization = true.
Proof.
  intros [Hne Heq] HL.
  pose proof (PercentageOfNonGaps_evaluate_formula sequences Hne HL) as E.
  assert (Hden : IZR (Z.of_nat (alignment_length sequences)
                      * Z.of_nat (length sequences)) ≠ 0%R).
  { apply not_0_IZR. destruct sequences; [done|]. cbn [length] in *. lia. }
  split; [exact E|]. split; [|split; [|reflexivity]].
  - intros Hno. rewrite E, total_gaps_none by exact Hno. f_equal. field. exact Hden.
  - intros Hall. rewrite E, total_gaps_all by assumption. f_equal. field. exact Hden.
Qed.

Lemma PercentageOfNonGaps_evaluate_spec_witness :
  valid_alignment ["A-C"; "--G"] ∧ (0 < alignment_length ["A-C"; "--G"])%nat ∧
  PercentageOfNonGaps.evaluate ["A-C"; "--G"]
  = Ok (100 - IZR (total_gaps ["A-C"; "--G"])
               / IZR (Z.of_nat (alignment_length ["A-C"; "--G"])
                      * Z.of_nat (length ["A-C"; "--G"])) * 100)%R.
Proof.
  assert (Hv : valid_alignment ["A-C"; "--G"])
    by (split; [discriminate|repeat constructor]).
  assert (HL : (0 < alignment_length ["A-C"; "--G"])%nat) by (vm_compute; lia).
  split; [exact Hv|]. split; [exact HL|].
  exact (proj1 (PercentageOfNonGaps_evaluate_spec ["A-C"; "--G"] Hv HL)).
Defined.

(** ** PercentageOfTotallyConservedColumns *)

Lemma set_size_le_1_iff (col : list ascii) :
  (size (list_to_set col : gset ascii) ≤ 1)%nat ↔
  (∀ a b, a ∈ col → b ∈ col → a = b).
Proof.
  split.
  - intros Hsz a b Ha Hb.
    destruct (decide (a = b)) as [|Hab]; [done|exfalso].
    assert (Hsub : ({[a]} ∪ {[b]} : gset ascii) ⊆ list_to_set col).
    { intros x Hx. apply elem_of_list_to_set.
      apply elem_of_union in Hx as [Hx|Hx]; apply elem_of_singleton in Hx; by subst. }
    apply subseteq_size in Hsub.
    rewrite size_union, !size_singleton in Hsub by set_solver. lia.
  - intros Hall. destruct col as [|a col'].
    + cbn. rewrite size_empty. lia.
    + assert (Hsub : (list_to_set (a :: col') : gset ascii) ⊆ {[a]}).
      { intros x Hx. apply elem_of_list_to_set in Hx.
        apply elem_of_singleton. apply Hall; [exact Hx|left]. }
      apply subseteq_size in Hsub. by rewrite size_singleton in Hsub.
Qed.

Lemma is_conserved_iff (col : list ascii) :
  PercentageOfTotallyConservedColumns.is_conserved col = true ↔
  (∀ a b, a ∈ col → b ∈ col → a = b).
Proof.
  unfold PercentageOfTotallyConservedColumns.is_conserved.
  rewrite bool_decide_eq_true. apply set_size_le_1_iff.
Qed.

Lemma PercentageOfTotallyConservedColumns_evaluate_formula (sequences : list string) :
  valid_alignment sequences → (0 < alignment_length sequences)%nat →
  PercentageOfTotallyConservedColumns.evaluate sequences
  = Ok (IZR (conserved_columns sequences)
        / IZR (Z.of_nat (alignment_length sequences)) * 100)%R.
Proof.
  intros [Hne Heq] HL. destruct sequences as [|first l]; [done|].
  unfold PercentageOfTotallyConservedColumns.evaluate.
  rewrite list_first_cons, bind_Ok.
  change (len first) with (alignment_length (first :: l)).
  rewrite (for_each_sumZ _ _
    (λ k, if decide (size (list_to_set (column (first :: l) k) : gset ascii) ≤ 1)%nat
          then 1%Z else 0%Z)).
  - rewrite bind_Ok, Z.add_0_l.
    rewrite (sumZ_indicator
      (λ k, size (list_to_set (column (first :: l) k) : gset ascii) ≤ 1)%nat).
    unfold true_div. rewrite decide_False by lia. reflexivity.
  - intros k a Hk. apply elem_of_range in Hk.
    rewrite get_column_Ok, bind_Ok by assumption.
    unfold PercentageOfTotallyConservedColumns.is_conserved.
    case_bool_decide; rewrite ?decide_True, ?decide_False by assumption;
      cbn; f_equal; lia.
Qed.

Lemma filter_all {A : Type} (P : A → Prop) `{∀ x, Decision (P x)} (l : list A) :
  (∀ x, x ∈ l → P x) → filter P l = l.
Proof.
  induction l as [|x l IH]; intros Hall; [reflexivity|].
  rewrite filter_cons_True by (apply Hall; left).
  f_equal. apply IH. intros y Hy. apply Hall. by right.
Qed.

(** C6: on a non-empty alignment of non-empty equal-length sequences,
    [PercentageOfTotallyConservedColumns.evaluate] returns
    [conservedColumns / totalColumns * 100], a column being conserved exactly
    when the set of its symbols has size at most 1, that is when all its
    symbols agree; a single sequence has every column conserved (score 100);
    ["AC"], ["AC"], ["AG"] scores 50. *)
Theorem PercentageOfTotallyConservedColumns_evaluate_spec (sequences : list string) :
  valid_alignment sequences → (0 < alignment_length sequences)%nat →
  PercentageOfTotallyConservedColumns.evaluate sequences
  = Ok (IZR (conserved_columns sequences)
        / IZR (Z.of_nat (alignment_length sequences)) * 100)%R ∧
  (∀ k, PercentageOfTotallyConservedColumns.is_conserved (column sequences k) = true ↔
        (size (list_to_set (column sequences k) : gset ascii) ≤ 1)%nat) ∧
  (∀ k, PercentageOfTotallyConservedColumns.is_conserved (column sequences k) = true ↔
        (∀ a b, a ∈ column sequences k → b ∈ column sequences k → a = b)) ∧
  (length sequences = 1%nat →
   conserved_columns sequences = Z.of_nat (alignment_length sequences) ∧
   PercentageOfTotallyConservedColumns.evaluate sequences = Ok 100%R) ∧
  PercentageOfTotallyConservedColumns.evaluate ["AC"; "AC"; "AG"] = Ok 50%R.
Proof.
  intros Hv HL.
  pose proof (PercentageOfTotallyConservedColumns_evaluate_formula sequences Hv HL) as E.
  split; [exact E|]. split; [|split; [|split]].
  - intros k. unfold PercentageOfTotallyConservedColumns.is_conserved.
    apply bool_decide_eq_true.
  - intros k. apply is_conserved_iff.
  - intros H1.
    assert (Hc : conserved_columns sequences = Z.of_nat (alignment_length sequences)).
    { unfold conserved_columns. rewrite filter_all.
      - unfold range. by rewrite length_seq.
      - intros k _. apply set_size_le_1_iff.
        destruct sequences as [|s [|? ?]]; try discriminate.
        cbn. intros a b Ha Hb.
        apply list_elem_of_singleton in Ha, Hb. congruence. }
    split; [exact Hc|]. rewrite E, Hc. f_equal. field.
    apply not_0_IZR. lia.
  - rewrite PercentageOfTotallyConservedColumns_evaluate_formula.
    + replace (conserved_columns ["AC"; "AC"; "AG"]) with 1%Z by (vm_compute; reflexivity).
      replace (Z.of_nat (alignment_length ["AC"; "AC"; "AG"])) with 2%Z
        by (vm_compute; reflexivity).
      f_equal. lra.
    + split; [discriminate|]. repeat constructor.
    + vm_compute. lia.
Qed.

Lemma PercentageOfTotallyConservedColumns_evaluate_spec_witness :
  valid_alignment ["AC"; "AC"; "AG"] ∧
  (0 < alignment_length ["AC"; "AC"; "AG"])%nat ∧
  PercentageOfTotallyConservedColumns.evaluate ["AC"; "AC"; "AG"]
  = Ok (IZR (conserved_columns ["AC"; "AC"; "AG"])
        / IZR (Z.of_nat (alignment_length ["AC"; "AC"; "AG"])) * 100)%R.
Proof.
  assert (Hv : valid_alignment ["AC"; "AC"; "AG"])
    by (split; [discriminate|repeat constructor]).
  assert (HL : (0 < alignment_length ["AC"; "AC"; "AG"])%nat) by (vm_compute; lia).
  split; [exact Hv|]. split; [exact HL|].
  exact (proj1 (PercentageOfTotallyConservedColumns_evaluate_spec _ Hv HL)).
Defined.

(** ** Pairs of positions and [itertools.combinations(_, 2)] *)

Lemma index_pairs_S (n : nat) :
  index_pairs (S n)
  = map (pair 0%nat) (seq 1 n) ++ map (λ ij, (S ij.1, S ij.2)) (index_pairs n).
Proof.
  unfold index_pairs. cbn [seq flat_map].
  replace (S n - 1)%nat with n by lia. f_equal.
  rewrite <- seq_shift, !flat_map_concat_map, concat_map, !map_map.
  f_equal. apply map_ext. intros i.
  replace (S n - S (S i))%nat with (n - S i)%nat by lia.
  rewrite <- seq_shift, !map_map. reflexivity.
Qed.

Lemma elem_of_index_pairs (n i j : nat) :
  (i, j) ∈ index_pairs n ↔ (i < j < n)%nat.
Proof.
  unfold index_pairs. rewrite list_elem_of_In, in_flat_map. split.
  - intros (a & Ha & Hin). apply in_map_iff in Hin as (b & [= <- <-] & Hb).
    apply in_seq in Ha, Hb. lia.
  - intros Hij. exists i. split; [apply in_seq; lia|].
    apply in_map_iff. exists j. split; [reflexivity|]. apply in_seq. lia.
Qed.

Lemma NoDup_index_pairs (n : nat) : NoDup (index_pairs n).
Proof.
  induction n as [|n IH]; [constructor|].
  rewrite index_pairs_S. apply NoDup_app. split; [|split].
  - apply (NoDup_fmap_2 (pair 0%nat)), NoDup_seq.
  - intros [a b] H0 HS.
    apply list_elem_of_In, in_map_iff in H0 as (x & [= <- <-] & _).
    apply list_elem_of_In, in_map_iff in HS as (y & [= ] & _).
  - assert (Hinj : Inj (=) (=) (λ ij : nat * nat, (S ij.1, S ij.2))).
    { intros [a b] [c d] [= -> ->]. reflexivity. }
    apply (NoDup_fmap_2 _), IH.
Qed.

Lemma length_index_pairs (n : nat) :
  length (index_pairs n) = (n * (n - 1) / 2)%nat.
Proof.
  induction n as [|n IH]; [reflexivity|].
  rewrite index_pairs_S, length_app, !length_map, length_seq, IH.
  replace (S n * (S n - 1))%nat with (n * (n - 1) + n * 2)%nat by nia.
  rewrite Nat.div_add by lia. lia.
Qed.

Lemma map_lookup_seq {A B : Type} (d : A) (f : A → B) (l : list A) :
  map f l = map (λ j, f (default d (l !! j))) (seq 0 (length l)).
Proof.
  induction l as [|x l IH]; [reflexivity|].
  cbn [length seq map]. f_equal.
  rewrite <- seq_shift, map_map. exact IH.
Qed.

Lemma combinations_2_index_pairs (col : list ascii) :
  combinations_2 col = map (symbols_at col) (index_pairs (length col)).
Proof.
  induction col as [|x col IH]; [reflexivity|].
  cbn [combinations_2 length]. rewrite index_pairs_S, map_app, !map_map, IH. f_equal.
  rewrite <- seq_shift, map_map. apply (map_lookup_seq "000"%char).
Qed.

(** ** SumOfPairs *)

Section SumOfPairs_facts.
Variable m : ascii → ascii → Z.

Lemma SumOfPairs_get_score_of_k_column_spec (col : list ascii) :
  SumOfPairs.get_score_of_k_column m col
  = Ok (sumZ (map (λ ij, m (symbols_at col ij).1 (symbols_at col ij).2)
                (index_pairs (length col)))).
Proof.
  unfold SumOfPairs.get_score_of_k_column, SumOfPairs.possible_combinations.
  rewrite (for_each_sumZ _ _ (λ ab, m ab.1 ab.2)).
  - rewrite Z.add_0_l, combinations_2_index_pairs, map_map. reflexivity.
  - intros [a b] acc _. reflexivity.
Qed.

Lemma SumOfPairs_evaluate_formula (sequences : list string) :
  valid_alignment sequences →
  SumOfPairs.evaluate m sequences
  = Ok (sumZ (map (λ k,
          sumZ (map (λ ij, m (symbols_at (column sequences k) ij).1
                             (symbols_at (column sequences k) ij).2)
                  (index_pairs (length sequences))))
        (range (alignment_length sequences)))).
Proof.
  intros [Hne Heq]. destruct sequences as [|first l]; [done|].
  unfold SumOfPairs.evaluate. rewrite list_first_cons, bind_Ok.
  change (len first) with (alignment_length (first :: l)).
  rewrite (for_each_sumZ _ _ (λ k,
    sumZ (map (λ ij, m (symbols_at (column (first :: l) k) ij).1
                       (symbols_at (column (first :: l) k) ij).2)
            (index_pairs (length (first :: l)))))).
  - by rewrite Z.add_0_l.
  - intros k acc Hk. apply elem_of_range in Hk.
    rewrite get_column_Ok, bind_Ok by assumption.
    rewrite SumOfPairs_get_score_of_k_column_spec, bind_Ok, length_column.
    reflexivity.
Qed.
End SumOfPairs_facts.

Lemma fully_conserved_column (sequences : list string) (k : nat) (a b : ascii) :
  fully_conserved sequences →
  a ∈ column sequences k → b ∈ column sequences k → a = b.
Proof.
  intros Hc Ha Hb. unfold column in *.
  apply list_elem_of_In, in_map_iff in Ha as (s & <- & Hs).
  apply list_elem_of_In, in_map_iff in Hb as (s' & <- & Hs').
  apply list_elem_of_In in Hs, Hs'. by rewrite (Hc s s').
Qed.

Lemma default_lookup_elem_of {A : Type} (d : A) (l : list A) (i : nat) :
  (i < length l)%nat → default d (l !! i) ∈ l.
Proof.
  intros Hi. destruct (l !! i) eqn:E.
  - cbn. by eapply list_elem_of_lookup_2.
  - apply lookup_ge_None in E. lia.
Qed.

(** C4: on a valid alignment, [SumOfPairs.evaluate] sums, over every
    column, the substitution value of the symbols at each pair of positions
    [i < j] of the column: the pairs are exactly those with [i < j < n] (no
    self-pair), each listed once, [C(n,2) = n(n-1)/2] of them; with
    [distance('A','A') = 5] the rows ["AAA"], ["AAA"], ["AAA"] score 45; a
    fully conserved alignment under a lookup with [distance(x,x) = M] scores
    [C(n,2) * M * L]. *)
Theorem SumOfPairs_evaluate_spec (m : ascii → ascii → Z) (sequences : list string) :
  valid_alignment sequences →
  SumOfPairs.evaluate m sequences
  = Ok (sumZ (map (λ k,
          sumZ (map (λ ij, m (symbols_at (column sequences k) ij).1
                             (symbols_at (column sequences k) ij).2)
                  (index_pairs (length sequences))))
        (range (alignment_length sequences)))) ∧
  (∀ i j, (i, j) ∈ index_pairs (length sequences) ↔ (i < j < length sequences)%nat) ∧
  NoDup (index_pairs (length sequences)) ∧
  length (index_pairs (length sequences))
  = (length sequences * (length sequences - 1) / 2)%nat ∧
  (m "A"%char "A"%char = 5%Z →
   SumOfPairs.evaluate m ["AAA"; "AAA"; "AAA"] = Ok 45%Z) ∧
  (∀ M, (∀ x, m x x = M) → fully_conserved sequences →
   SumOfPairs.evaluate m sequences
   = Ok (Z.of_nat (length sequences * (length sequences - 1) / 2) * M
         * Z.of_nat (alignment_length sequences))%Z).
Proof.
  intros Hv. pose proof (SumOfPairs_evaluate_formula m sequences Hv) as E.
  split; [exact E|]. split; [intros; apply elem_of_index_pairs|].
  split; [apply NoDup_index_pairs|]. split; [apply length_index_pairs|]. split.
  - intros HA. rewrite SumOfPairs_evaluate_formula.
    + cbn. rewrite !HA. reflexivity.
    + split; [discriminate|]. repeat constructor.
  - intros M HM Hc. rewrite E. f_equal.
    rewrite (sumZ_map_const _
      (Z.of_nat (length sequences * (length sequences - 1) / 2) * M)%Z).
    + unfold range. rewrite length_seq. lia.
    + intros k _. rewrite (sumZ_map_const _ M).
      * by rewrite length_index_pairs.
      * intros [i j] Hij. apply elem_of_index_pairs in Hij. cbn.
        rewrite <- HM with (x := default "000"%char (column sequences k !! i)).
        f_equal. apply (fully_conserved_column sequences k); [exact Hc| |];
          apply default_lookup_elem_of; rewrite length_column; lia.
Qed.

Lemma SumOfPairs_evaluate_spec_witness :
  valid_alignment ["AC"; "AG"] ∧
  SumOfPairs.evaluate (λ a b, if decide (a = b) then 2%Z else 0%Z) ["AC"; "AG"]
  = Ok (sumZ (map (λ k,
          sumZ (map (λ ij, (λ a b, if decide (a = b) then 2%Z else 0%Z)
                             (symbols_at (column ["AC"; "AG"] k) ij).1
                             (symbols_at (column ["AC"; "AG"] k) ij).2)
                  (index_pairs (length ["AC"; "AG"]))))
        (range (alignment_length ["AC"; "AG"])))).
Proof.
  assert (Hv : valid_alignment ["AC"; "AG"])
    by (split; [discriminate|repeat constructor]).
  split; [exact Hv|].
  exact (proj1 (SumOfPairs_evaluate_spec
                  (λ a b, if decide (a = b) then 2%Z else 0%Z) ["AC"; "AG"] Hv)).
Defined.

(** ** Distinct symbols, dictionaries and counters *)

Section Distinct.
Context {A : Type} `{EqDecision A}.
Implicit Types l : list A.

Lemma elem_of_distinct l x : x ∈ distinct l ↔ x ∈ l.
Proof.
  induction l as [|a l IH]; [reflexivity|].
  cbn [distinct]. rewrite !elem_of_cons, list_elem_of_filter, IH.
  destruct (decide (x = a)); tauto.
Qed.

Lemma NoDup_distinct l : NoDup (distinct l).
Proof.
  induction l as [|a l IH]; [constructor|].
  cbn [distinct]. constructor.
  - rewrite list_elem_of_filter. tauto.
  - by apply NoDup_filter.
Qed.

Lemma distinct_app l1 l2 :
  distinct (l1 ++ l2) = distinct l1 ++ filter (λ y, y ∉ l1) (distinct l2).
Proof.
  induction l1 as [|a l1 IH].
  - cbn. symmetry. apply filter_all. intros x _. apply not_elem_of_nil.
  - cbn [app distinct]. rewrite IH, filter_app. do 2 f_equal.
    rewrite list_filter_filter. apply list_filter_iff.
    intros x. rewrite not_elem_of_cons. tauto.
Qed.

Lemma distinct_snoc l x :
  distinct (l ++ [x]) = if decide (x ∈ l) then distinct l else distinct l ++ [x].
Proof.
  rewrite distinct_app. cbn [distinct filter]. rewrite filter_nil.
  destruct (decide (x ∈ l)) as [Hin|Hin].
  - rewrite filter_cons_False by tauto. by rewrite filter_nil, app_nil_r.
  - by rewrite filter_cons_True, filter_nil.
Qed.

Lemma distinct_split_first l1 l2 x :
  x ∉ l1 → ∃ rest, distinct (l1 ++ x :: l2) = distinct l1 ++ x :: rest.
Proof.
  intros Hx. rewrite distinct_app. cbn [distinct].
  rewrite filter_cons_True by exact Hx. eauto.
Qed.
End Distinct.

Section DictFacts.
Context {K V : Type} `{EqDecision K}.

Lemma dict_get_tabulated (g : K → V) (d0 : V) (k : K) (ks : list K) :
  dict_get k d0 (map (λ c, (c, g c)) ks) = if decide (k ∈ ks) then g k else d0.
Proof.
  induction ks as [|a ks IH].
  - cbn. rewrite decide_False by apply not_elem_of_nil. reflexivity.
  - cbn [map dict_get]. destruct (decide (a = k)) as [->|Hne].
    + rewrite decide_True by left. reflexivity.
    + rewrite IH. apply decide_ext. rewrite elem_of_cons.
      split; [tauto|]. intros [->|]; [done|assumption].
Qed.

Lemma dict_set_tabulated (g g' : K → V) (k : K) (v : V) (ks : list K) :
  NoDup ks → g' k = v → (∀ c, c ≠ k → g' c = g c) →
  dict_set k v (map (λ c, (c, g c)) ks)
  = map (λ c, (c, g' c)) (if decide (k ∈ ks) then ks else ks ++ [k]).
Proof.
  intros Hnd Hk Hother. induction ks as [|a ks IH].
  - rewrite decide_False by apply not_elem_of_nil. cbn. by rewrite Hk.
  - apply NoDup_cons in Hnd as [Ha Hnd]. specialize (IH Hnd).
    cbn [map dict_set]. destruct (decide (a = k)) as [->|Hne].
    + rewrite decide_True by left. cbn [map]. rewrite Hk. f_equal.
      apply List.map_ext_in. intros c Hc. rewrite Hother; [reflexivity|].
      intros ->. apply Ha. by apply list_elem_of_In.
    + rewrite IH. destruct (decide (k ∈ ks)) as [Hin|Hin].
      * rewrite decide_True by (by right). cbn [map]. by rewrite Hother.
      * rewrite decide_False.
        -- cbn [map app]. by rewrite Hother.
        -- rewrite elem_of_cons. intros [->|]; [done|tauto].
Qed.
End DictFacts.

Lemma zip_self_map {A B : Type} (h : A → B) (l : list A) :
  zip l (map h l) = map (λ c, (c, h c)) l.
Proof. induction l as [|x l IH]; [reflexivity|]. cbn. by rewrite <- IH. Qed.

Lemma dict_of_tabulated {K V : Type} `{EqDecision K} (h : K → V) (l : list K) :
  dict_of (map (λ c, (c, h c)) l) = map (λ c, (c, h c)) (distinct l).
Proof.
  unfold dict_of. induction l as [|x l IH] using rev_ind; [reflexivity|].
  rewrite map_app, fold_left_app, IH. cbn [map fold_left fst snd].
  rewrite (dict_set_tabulated h h) by (auto using NoDup_distinct).
  rewrite distinct_snoc. f_equal.
  apply decide_ext. apply elem_of_distinct.
Qed.

Lemma Counter_spec {K : Type} `{EqDecision K} (l : list K) :
  Counter l = map (λ c, (c, list_count c l)) (distinct l).
Proof.
  unfold Counter. induction l as [|x l IH] using rev_ind; [reflexivity|].
  rewrite fold_left_app, IH. cbn [fold_left].
  rewrite dict_get_tabulated.
  rewrite (dict_set_tabulated (λ c, list_count c l) (λ c, list_count c (l ++ [x]))).
  - rewrite distinct_snoc. f_equal. apply decide_ext. apply elem_of_distinct.
  - apply NoDup_distinct.
  - rewrite list_count_app, list_count_cons, decide_True, list_count_nil by done.
    destruct (decide (x ∈ distinct l)) as [|Hn]; [lia|].
    rewrite elem_of_distinct in Hn. rewrite list_count_absent by done. lia.
  - intros c Hc. rewrite list_count_app, list_count_cons, decide_False, list_count_nil by done.
    lia.
Qed.

(** ** Entropy *)

Lemma frequency_pos (col : list ascii) (c : ascii) :
  c ∈ col → (0 < frequency col c)%R.
Proof.
  intros Hc. unfold frequency. apply Rdiv_lt_0_compat; apply IZR_lt.
  - pose proof (list_count_pos c col Hc). lia.
  - destruct col; [by apply not_elem_of_nil in Hc|]. cbn [length]. lia.
Qed.

Lemma get_words_frequencies_spec (words : list ascii) :
  Entropy.get_words_frequencies words
  = Ok (map (λ c, (c, frequency words c)) (distinct words)).
Proof.
  unfold Entropy.get_words_frequencies.
  rewrite (mapM_Ok _ (frequency words)).
  - rewrite bind_Ok, zip_self_map, dict_of_tabulated. reflexivity.
  - intros w Hw. unfold true_div. rewrite decide_False; [reflexivity|].
    destruct words; [by apply not_elem_of_nil in Hw|]. cbn [length]. lia.
Qed.

Lemma math_log_pos (x : R) : (0 < x)%R → math_log x = Ok (ln x).
Proof. intros Hx. unfold math_log. destruct (Rlt_dec 0 x); [reflexivity|done]. Qed.

Lemma get_column_entropy_spec (col : list ascii) :
  Entropy.get_column_entropy (map (λ c, (c, frequency col c)) (distinct col))
  = Ok (sumR (map (λ c, frequency col c * ln (frequency col c))%R (distinct col))).
Proof.
  unfold Entropy.get_column_entropy.
  rewrite (for_each_sumR _ _ (λ kv : ascii * R, kv.2 * ln kv.2)%R).
  - rewrite Rplus_0_l, map_map. reflexivity.
  - intros [key value] acc Hin.
    apply list_elem_of_In, in_map_iff in Hin as (c & [= <- <-] & Hc).
    apply list_elem_of_In in Hc. rewrite elem_of_distinct in Hc.
    rewrite math_log_pos by (by apply frequency_pos). reflexivity.
Qed.

Lemma Entropy_evaluate_formula (sequences : list string) :
  valid_alignment sequences →
  Entropy.evaluate sequences = Ok (entropy_per_distinct_symbol sequences).
Proof.
  intros [Hne Heq]. destruct sequences as [|first l]; [done|].
  unfold Entropy.evaluate, entropy_per_distinct_symbol.
  rewrite list_first_cons, bind_Ok.
  change (len first) with (alignment_length (first :: l)).
  rewrite (for_each_sumR _ _ (λ k,
    sumR (map (λ c, frequency (column (first :: l) k) c
                    * ln (frequency (column (first :: l) k) c))%R
            (distinct (column (first :: l) k))))).
  - by rewrite Rplus_0_l.
  - intros k acc Hk. apply elem_of_range in Hk.
    rewrite get_column_Ok, bind_Ok by assumption.
    rewrite get_words_frequencies_spec, bind_Ok.
    rewrite get_column_entropy_spec, bind_Ok. reflexivity.
Qed.

Lemma entropy_example_values :
  entropy_per_distinct_symbol ["A"; "A"; "C"]
  = (2 / 3 * ln (2 / 3) + 1 / 3 * ln (1 / 3))%R ∧
  entropy_per_occurrence ["A"; "A"; "C"]
  = (2 * (2 / 3 * ln (2 / 3)) + 1 / 3 * ln (1 / 3))%R.
Proof.
  unfold entropy_per_distinct_symbol, entropy_per_occurrence.
  cbn [alignment_length].
  change (len "A") with 1%nat. cbn [range seq map].
  change (column ["A"; "A"; "C"] 0) with ["A"%char; "A"%char; "C"%char].
  change (distinct ["A"%char; "A"%char; "C"%char]) with ["A"%char; "C"%char].
  cbn [map]. unfold sumR. cbn [foldr].
  replace (frequency ["A"%char; "A"%char; "C"%char] "A") with (2 / 3)%R
    by (unfold frequency; reflexivity).
  replace (frequency ["A"%char; "A"%char; "C"%char] "C") with (1 / 3)%R
    by (unfold frequency; reflexivity).
  split; lra.
Qed.

Lemma ln_two_thirds_neg : (ln (2 / 3) < 0)%R.
Proof. rewrite <- ln_1. apply ln_increasing; lra. Qed.

(** C1 (as amended): on a valid alignment, [Entropy.evaluate] returns the
    sum over all column indices of [frequency * ln(frequency)] taken once
    per distinct symbol of the column (the frequencies are stored in a
    dictionary keyed by symbol): a symbol occurring [m] times among [n]
    rows contributes [(m/n) * ln(m/n)] once. *)
Theorem Entropy_evaluate_sums_once_per_distinct_symbol (sequences : list string) :
  valid_alignment sequences →
  Entropy.evaluate sequences = Ok (entropy_per_distinct_symbol sequences) ∧
  (∀ k, NoDup (distinct (column sequences k))) ∧
  (∀ k c, c ∈ distinct (column sequences k) ↔ c ∈ column sequences k).
Proof.
  intros Hv. split; [by apply Entropy_evaluate_formula|].
  split; [intros; apply NoDup_distinct|intros; apply elem_of_distinct].
Qed.

Lemma Entropy_evaluate_sums_once_per_distinct_symbol_witness :
  valid_alignment ["AC"; "A-"; "GC"] ∧
  Entropy.evaluate ["AC"; "A-"; "GC"]
  = Ok (entropy_per_distinct_symbol ["AC"; "A-"; "GC"]).
Proof.
  assert (Hv : valid_alignment ["AC"; "A-"; "GC"])
    by (split; [discriminate|repeat constructor]).
  split; [exact Hv|].
  exact (proj1 (Entropy_evaluate_sums_once_per_distinct_symbol _ Hv)).
Defined.

(** C1 (counterexample): for the one-column alignment ["A"], ["A"], ["C"]
    the code returns [2/3 ln(2/3) + 1/3 ln(1/3)], counting the symbol [A]
    once, whereas the sum per occurrence is
    [2 * (2/3 ln(2/3)) + 1/3 ln(1/3)]. *)
Lemma Entropy_does_not_sum_per_occurrence :
  valid_alignment ["A"; "A"; "C"] ∧
  Entropy.evaluate ["A"; "A"; "C"]
  = Ok (2 / 3 * ln (2 / 3) + 1 / 3 * ln (1 / 3))%R ∧
  entropy_per_occurrence ["A"; "A"; "C"]
  = (2 * (2 / 3 * ln (2 / 3)) + 1 / 3 * ln (1 / 3))%R ∧
  Entropy.evaluate ["A"; "A"; "C"] ≠ Ok (entropy_per_occurrence ["A"; "A"; "C"]).
Proof.
  assert (Hv : valid_alignment ["A"; "A"; "C"])
    by (split; [discriminate|repeat constructor]).
  split; [exact Hv|].
  rewrite Entropy_evaluate_formula by exact Hv.
  destruct entropy_example_values as [-> ->].
  split; [reflexivity|]. split; [reflexivity|].
  intros [= H]. pose proof ln_two_thirds_neg. lra.
Qed.

(** ** Star *)

Lemma max_by_count_spec {K : Type} (g : K → nat) (ks : list K) (best : K) :
  ∃ m D1 D2,
    max_by_count (best, g best) (map (λ c, (c, g c)) ks) = (m, g m) ∧
    best :: ks = D1 ++ m :: D2 ∧
    (∀ c, c ∈ D1 → g c < g m)%nat ∧
    (∀ c, c ∈ D2 → g c ≤ g m)%nat.
Proof.
  unfold max_by_count. revert best.
  induction ks as [|k ks IH]; intros best.
  - exists best, [], []. cbn. split_and!; [done..| |]; intros c Hc;
      by apply not_elem_of_nil in Hc.
  - cbn [map fold_left snd]. destruct (decide (g best < g k)%nat) as [Hlt|Hge].
    + destruct (IH k) as (m & D1 & D2 & E & Hsplit & H1 & H2).
      exists m, (best :: D1), D2. split_and!; [exact E|by rewrite Hsplit| |exact H2].
      intros c Hc. apply elem_of_cons in Hc as [->|Hc]; [|by apply H1].
      assert (Hk : k ∈ D1 ++ m :: D2) by (rewrite <- Hsplit; left).
      apply elem_of_app in Hk as [Hk|Hk].
      * specialize (H1 k Hk). lia.
      * apply elem_of_cons in Hk as [->|Hk]; [lia|]. specialize (H2 k Hk). lia.
    + destruct (IH best) as (m & D1 & D2 & E & Hsplit & H1 & H2).
      destruct D1 as [|b D1].
      * cbn [app] in Hsplit. injection Hsplit as Hb Hks. subst m D2.
        exists best, [], (k :: ks). split_and!; [exact E|done| |].
        -- intros c Hc. by apply not_elem_of_nil in Hc.
        -- intros c Hc. apply elem_of_cons in Hc as [->|Hc]; [lia|by apply H2].
      * cbn [app] in Hsplit. injection Hsplit as Hb Hks. subst b ks.
        exists m, (best :: k :: D1), D2. split_and!; [exact E|done| |exact H2].
        intros c Hc. apply elem_of_cons in Hc as [->|Hc]; [apply H1; left|].
        apply elem_of_cons in Hc as [->|Hc].
        -- assert (g best < g m)%nat by (apply H1; left). lia.
        -- apply H1. by right.
Qed.

Lemma app_cons_first_unique {A : Type} (x : A) (l1 l2 k1 k2 : list A) :
  l1 ++ x :: l2 = k1 ++ x :: k2 → x ∉ l1 → x ∉ k1 → l1 = k1.
Proof.
  revert k1. induction l1 as [|a l1 IH]; intros k1 E Hl Hk.
  - destruct k1 as [|b k1]; [reflexivity|].
    cbn in E. injection E as -> _. exfalso. apply Hk. left.
  - destruct k1 as [|b k1].
    + cbn in E. injection E as -> _. exfalso. apply Hl. left.
    + cbn in E. injection E as -> E. f_equal.
      apply IH; [exact E| |]; intros Hin; [apply Hl|apply Hk]; by right.
Qed.

Lemma most_common_1_majority (col : list ascii) :
  col ≠ [] →
  ∃ m n, most_common_1 (Counter col) = [(m, n)] ∧ is_majority col m.
Proof.
  intros Hne. rewrite Counter_spec.
  destruct col as [|x col']; [done|]. set (col := x :: col').
  assert (Hd : ∃ ks, distinct col = x :: ks) by (cbn; eauto).
  destruct Hd as [ks Hd]. rewrite Hd. cbn [map most_common_1].
  destruct (max_by_count_spec (λ c, list_count c col) ks x)
    as (m & D1 & D2 & E & Hsplit & H1 & H2).
  rewrite <- Hd in Hsplit.
  exists m, (list_count m col). split; [by rewrite E|].
  assert (Hm : m ∈ col).
  { apply elem_of_distinct. rewrite Hsplit. apply elem_of_app. right. left. }
  split.
  - intros c Hc. apply elem_of_distinct in Hc. rewrite Hsplit in Hc.
    apply elem_of_app in Hc as [Hc|Hc]; [specialize (H1 c Hc); lia|].
    apply elem_of_cons in Hc as [->|Hc]; [lia|by apply H2].
  - apply list_elem_of_split_l in Hm as (before & after & Hcol & Hnot).
    exists before, after. split_and!; [exact Hcol|exact Hnot|].
    intros c Hc. apply H1.
    destruct (distinct_split_first before after m Hnot) as [rest Hrest].
    rewrite <- Hcol, Hsplit in Hrest.
    rewrite (app_cons_first_unique m D1 D2 (distinct before) rest Hrest).
    + by apply elem_of_distinct.
    + intros Hin. specialize (H1 m Hin). lia.
    + by rewrite elem_of_distinct.
Qed.

Lemma is_majority_elem_of (col : list ascii) (m : ascii) :
  is_majority col m → m ∈ col.
Proof.
  intros (_ & before & after & -> & _). apply elem_of_app. right. left.
Qed.

Lemma is_majority_unique (col : list ascii) (m m' : ascii) :
  is_majority col m → is_majority col m' → m = m'.
Proof.
  intros Hm Hm'.
  pose proof (is_majority_elem_of _ _ Hm) as Hin.
  pose proof (is_majority_elem_of _ _ Hm') as Hin'.
  destruct Hm as (Hmax & b & a & Hcol & Hnb & Hlt).
  destruct Hm' as (Hmax' & b' & a' & Hcol' & Hnb' & Hlt').
  assert (Heq : list_count m col = list_count m' col).
  { apply Nat.le_antisymm; [by apply Hmax'|by apply Hmax]. }
  assert (Hmb' : m ∉ b').
  { intros Hc. specialize (Hlt' m Hc). lia. }
  assert (Hm'b : m' ∉ b).
  { intros Hc. specialize (Hlt m' Hc). lia. }
  destruct (decide (m = m')) as [|Hne]; [done|exfalso].
  assert (L1 : col !! length b = Some m) by (rewrite Hcol; apply list_lookup_middle; done).
  assert (L2 : col !! length b' = Some m') by (rewrite Hcol'; apply list_lookup_middle; done).
  destruct (Nat.lt_trichotomy (length b) (length b')) as [Hl|[Hl|Hl]].
  - rewrite Hcol', lookup_app_l in L1 by exact Hl.
    apply Hmb'. by eapply list_elem_of_lookup_2.
  - rewrite Hl in L1. congruence.
  - rewrite Hcol, lookup_app_l in L2 by exact Hl.
    apply Hm'b. by eapply list_elem_of_lookup_2.
Qed.

Section Star_facts.
Variable d : ascii → ascii → Z.

Lemma Star_get_score_of_k_column_spec (col : list ascii) :
  col ≠ [] →
  ∃ m, is_majority col m ∧
       Star.get_score_of_k_column d col = Ok (sumZ (map (d m) col)).
Proof.
  intros Hne. destruct (most_common_1_majority col Hne) as (m & n & E & Hm).
  exists m. split; [exact Hm|].
  unfold Star.get_score_of_k_column. rewrite E, list_first_cons, bind_Ok.
  cbn [fst]. rewrite (for_each_sumZ _ _ (d m)).
  - by rewrite Z.add_0_l.
  - intros c acc _. reflexivity.
Qed.

Lemma Star_evaluate_formula (sequences : list string) :
  valid_alignment sequences →
  ∃ majority : nat → ascii,
    (∀ k, (k < alignment_length sequences)%nat →
          is_majority (column sequences k) (majority k)) ∧
    Star.evaluate d sequences
    = Ok (sumZ (map (λ k, sumZ (map (d (majority k)) (column sequences k)))
                  (range (alignment_length sequences)))).
Proof.
  intros [Hne Heq].
  assert (Hcol : ∀ k, column sequences k ≠ []).
  { intros k. destruct sequences; [done|]. discriminate. }
  exists (λ k, match most_common_1 (Counter (column sequences k)) with
               | top :: _ => top.1
               | [] => "000"%char
               end).
  assert (Hmaj : ∀ k, is_majority (column sequences k)
            match most_common_1 (Counter (column sequences k)) with
            | top :: _ => top.1
            | [] => "000"%char
            end).
  { intros k. destruct (most_common_1_majority _ (Hcol k)) as (m & n & -> & Hm).
    exact Hm. }
  split; [intros k _; apply Hmaj|].
  destruct sequences as [|first l]; [done|].
  unfold Star.evaluate. rewrite list_first_cons, bind_Ok.
  change (len first) with (alignment_length (first :: l)).
  rewrite (for_each_sumZ _ _ (λ k,
    sumZ (map (d match most_common_1 (Counter (column (first :: l) k)) with
                 | top :: _ => top.1
                 | [] => "000"%char
                 end) (column (first :: l) k)))).
  - by rewrite Z.add_0_l.
  - intros k acc Hk. apply elem_of_range in Hk.
    rewrite get_column_Ok, bind_Ok by assumption.
    destruct (Star_get_score_of_k_column_spec _ (Hcol k)) as (m & Hm & ->).
    rewrite bind_Ok. rewrite (is_majority_unique _ _ _ (Hmaj k) Hm). reflexivity.
Qed.
End Star_facts.

(** C3: on a valid alignment, [Star.evaluate] sums, over every column, the
    substitution value between the column's majority symbol and each symbol
    of the column (the majority symbol against itself included); the
    majority symbol is a most frequent one, ties going to the symbol whose
    first occurrence is earliest, which determines it uniquely; with
    [distance(x,x) = M] a fully conserved alignment of [n] sequences and [L]
    columns scores [n * M * L]. *)
Theorem Star_evaluate_spec (d : ascii → ascii → Z) (sequences : list string) :
  valid_alignment sequences →
  (∃ majority : nat → ascii,
     (∀ k, (k < alignment_length sequences)%nat →
           is_majority (column sequences k) (majority k)) ∧
     Star.evaluate d sequences
     = Ok (sumZ (map (λ k, sumZ (map (d (majority k)) (column sequences k)))
                   (range (alignment_length sequences))))) ∧
  (∀ col m m', is_majority col m → is_majority col m' → m = m') ∧
  (∀ M, (∀ x, d x x = M) → fully_conserved sequences →
   Star.evaluate d sequences
   = Ok (Z.of_nat (length sequences) * M * Z.of_nat (alignment_length sequences))%Z).
Proof.
  intros Hv. pose proof (Star_evaluate_formula d sequences Hv) as E.
  split; [exact E|]. split; [exact is_majority_unique|].
  intros M HM Hc. destruct E as (majority & Hmaj & ->). f_equal.
  rewrite (sumZ_map_const _ (Z.of_nat (length sequences) * M)%Z).
  - unfold range. rewrite length_seq. lia.
  - intros k Hk. apply elem_of_range in Hk.
    rewrite (sumZ_map_const _ M).
    + by rewrite length_column.
    + intros c Hcin. rewrite <- (HM c). f_equal.
      apply (fully_conserved_column sequences k); [exact Hc| |exact Hcin].
      apply is_majority_elem_of, Hmaj, Hk.
Qed.

Example Star_tie_goes_to_first_occurrence :
  is_majority (chars "BAAB") "B"%char ∧
  Star.get_score_of_k_column (λ a b, if decide (a = b) then 1%Z else 0%Z) (chars "BAAB")
  = Ok 2%Z.
Proof.
  split; [|reflexivity]. split.
  - intros c Hc. vm_compute in Hc.
    repeat (apply elem_of_cons in Hc as [->|Hc]; [vm_compute; lia|]).
    by apply not_elem_of_nil in Hc.
  - exists [], (chars "AAB"). split_and!; [reflexivity|apply not_elem_of_nil|].
    intros c Hc. by apply not_elem_of_nil in Hc.
Qed.

Example Star_three_rows_of_AAA (d : ascii → ascii → Z) :
  d "A"%char "A"%char = 5%Z → Star.evaluate d ["AAA"; "AAA"; "AAA"] = Ok 45%Z.
Proof. intros HA. vm_compute. rewrite !HA. reflexivity. Qed.

Lemma Star_evaluate_spec_witness :
  valid_alignment ["AC"; "AG"; "TG"] ∧
  ∃ majority : nat → ascii,
    (∀ k, (k < alignment_length ["AC"; "AG"; "TG"])%nat →
          is_majority (column ["AC"; "AG"; "TG"] k) (majority k)) ∧
    Star.evaluate (λ a b, if decide (a = b) then 2%Z else 0%Z) ["AC"; "AG"; "TG"]
    = Ok (sumZ (map (λ k, sumZ (map ((λ a b, if decide (a = b) then 2%Z else 0%Z)
                                      (majority k))
                                 (column ["AC"; "AG"; "TG"] k)))
                  (range (alignment_length ["AC"; "AG"; "TG"])))).
Proof.
  assert (Hv : valid_alignment ["AC"; "AG"; "TG"])
    by (split; [discriminate|repeat constructor]).
  split; [exact Hv|].
  exact (proj1 (Star_evaluate_spec
                  (λ a b, if decide (a = b) then 2%Z else 0%Z) _ Hv)).
Defined.

(** ** Strings and paths *)

Lemma string_app_cons (x : ascii) (a b : string) :
  String x a +:+ b = String x (a +:+ b).
Proof. reflexivity. Qed.

Lemma string_app_assoc (a b c : string) : (a +:+ b) +:+ c = a +:+ (b +:+ c).
Proof.
  induction a as [|x a IH]; [reflexivity|].
  rewrite !string_app_cons. f_equal. exact IH.
Qed.

Lemma string_app_nil_r (a : string) : a +:+ EmptyString = a.
Proof.
  induction a as [|x a IH]; [reflexivity|].
  rewrite string_app_cons. f_equal. exact IH.
Qed.

Lemma string_app_inv_head (a b c : string) : a +:+ b = a +:+ c → b = c.
Proof.
  induction a as [|x a IH]; intros E; [exact E|].
  apply IH. by injection E.
Qed.

Lemma dirname_aux_app (a b d : string) :
  dirname_aux b = Some d → dirname_aux (a +:+ b) = Some (a +:+ d).
Proof.
  intros Hb. induction a as [|c a IH]; [exact Hb|].
  change (String c a +:+ b) with (String c (a +:+ b)).
  cbn [dirname_aux]. by rewrite IH.
Qed.

Lemma is_absolute_app (a b : string) :
  is_absolute a = true → is_absolute (a +:+ b) = true.
Proof. destruct a; [discriminate|]. intros H; exact H. Qed.

Lemma os_path_join_absolute (a b : string) :
  is_absolute b = true → os_path_join a b = b.
Proof. intros Hb. unfold os_path_join. by rewrite Hb. Qed.

Lemma os_path_join_relative (a b : string) :
  is_absolute b = false → os_path_join a b = dir_prefix a +:+ b.
Proof.
  intros Hb. unfold os_path_join, dir_prefix. rewrite Hb.
  by destruct (_ || _).
Qed.

Lemma dir_prefix_absolute (a b : string) :
  is_absolute a = true → is_absolute (dir_prefix a +:+ b) = true.
Proof.
  intros Ha. apply is_absolute_app. unfold dir_prefix.
  destruct (_ || _); [exact Ha|by apply is_absolute_app].
Qed.

Lemma split_slash_nonempty (s : string) : split_slash s ≠ [].
Proof.
  induction s as [|c s IH]; [done|]. cbn [split_slash].
  destruct (decide _); [done|]. by destruct (split_slash s).
Qed.

Lemma split_slash_no_slash (s : string) :
  has_slash s = false → split_slash s = [s].
Proof.
  induction s as [|c s IH]; [done|]. cbn [has_slash split_slash].
  intros [Hc Hs]%orb_false_elim. apply bool_decide_eq_false in Hc.
  rewrite decide_False by exact Hc. by rewrite IH.
Qed.

Lemma split_slash_app (a b : string) :
  split_slash (a +:+ String "/" b) = split_slash a ++ split_slash b.
Proof.
  induction a as [|c a IH]; [reflexivity|].
  change (String c a +:+ String "/" b) with (String c (a +:+ String "/" b)).
  cbn [split_slash]. rewrite IH. destruct (decide _); [reflexivity|].
  pose proof (split_slash_nonempty a). by destruct (split_slash a).
Qed.

Lemma split_slash_slashes (n : nat) (s : string) :
  split_slash (slashes n +:+ s) = replicate n EmptyString ++ split_slash s.
Proof.
  induction n as [|n IH]; [reflexivity|].
  cbn [slashes replicate]. rewrite string_app_cons. cbn [split_slash].
  rewrite decide_True by done. by rewrite IH.
Qed.

Lemma split_slash_has_no_slash (s : string) :
  Forall (λ c, has_slash c = false) (split_slash s).
Proof.
  induction s as [|c s IH]; [by repeat constructor|]. cbn [split_slash].
  destruct (decide _) as [->|Hc]; [by constructor|].
  destruct (split_slash s) as [|comp comps];
    [by repeat constructor; cbn; rewrite bool_decide_eq_false_2|].
  apply Forall_cons in IH as [H1 H2]. constructor; [|done].
  cbn. by rewrite bool_decide_eq_false_2, H1.
Qed.

Lemma join_slash_cons (c : string) (C : list string) :
  C ≠ [] → join_slash (c :: C) = c +:+ String "/" (join_slash C).
Proof. by destruct C. Qed.

Lemma split_join_slash (C : list string) :
  C ≠ [] → Forall (λ c, has_slash c = false) C → split_slash (join_slash C) = C.
Proof.
  induction C as [|c C IH]; [done|]. intros _ HC.
  apply Forall_cons in HC as [Hc HC].
  destruct (decide (C = [])) as [->|Hne]; [by apply split_slash_no_slash|].
  rewrite join_slash_cons, split_slash_app, split_slash_no_slash, IH by done.
  reflexivity.
Qed.

Lemma join_slash_app (C B : list string) :
  C ≠ [] → B ≠ [] →
  join_slash (C ++ B) = join_slash C +:+ String "/" (join_slash B).
Proof.
  induction C as [|c C IH]; [done|]. intros _ HB.
  destruct (decide (C = [])) as [->|Hne].
  - cbn [app]. by rewrite join_slash_cons.
  - change ((c :: C) ++ B) with (c :: (C ++ B)).
    rewrite !join_slash_cons, IH by (done || by destruct C).
    by rewrite string_app_assoc.
Qed.

Lemma plain_has_no_slash (C : list string) :
  Forall plain_component C → Forall (λ c, has_slash c = false) C.
Proof. intros H. eapply Forall_impl; [exact H|]. by intros c (_ & _ & _ & Hc). Qed.

Lemma plain_not_absolute (c : string) (s : string) :
  plain_component c → is_absolute (c +:+ s) = false.
Proof.
  intros (H1 & _ & _ & H4). destruct c as [|x c]; [done|].
  rewrite string_app_cons. cbn [has_slash is_absolute] in H4 |- *.
  by apply orb_false_elim in H4 as [-> _].
Qed.

Lemma join_slash_not_absolute (C : list string) :
  Forall plain_component C → is_absolute (join_slash C) = false.
Proof.
  destruct C as [|c C]; [done|]. intros [Hc _]%Forall_cons.
  destruct C as [|c' C].
  - rewrite <- (string_app_nil_r c). by apply plain_not_absolute.
  - rewrite join_slash_cons by done. by apply plain_not_absolute.
Qed.

Lemma ends_with_slash_app (a s : string) :
  s ≠ EmptyString → ends_with_slash (a +:+ s) = ends_with_slash s.
Proof.
  intros Hs. induction a as [|x a IH]; [reflexivity|].
  change (String x a +:+ s) with (String x (a +:+ s)).
  cbn [ends_with_slash]. rewrite IH. destruct (a +:+ s) eqn:E; [|reflexivity].
  destruct a; [done|discriminate].
Qed.

Lemma ends_with_slash_has_slash (s : string) :
  ends_with_slash s = true → has_slash s = true.
Proof.
  induction s as [|c s IH]; [done|]. cbn [ends_with_slash has_slash].
  destruct s as [|c' s]; [intros ->; reflexivity|].
  intros H. rewrite IH by done. apply orb_true_r.
Qed.

Lemma join_slash_plain_end (C : list string) :
  C ≠ [] → Forall plain_component C →
  join_slash C ≠ EmptyString ∧ ends_with_slash (join_slash C) = false.
Proof.
  induction C as [|c C IH]; [done|]. intros _ [Hc HC]%Forall_cons.
  destruct (decide (C = [])) as [->|Hne].
  - cbn. destruct Hc as (H1 & _ & _ & H4). split; [done|].
    destruct (ends_with_slash c) eqn:E; [|done].
    apply ends_with_slash_has_slash in E. congruence.
  - rewrite join_slash_cons by done. destruct (IH Hne HC) as [IH1 IH2].
    split; [by destruct c|].
    rewrite ends_with_slash_app by done.
    change (String "/" (join_slash C)) with ("/" +:+ join_slash C).
    by rewrite ends_with_slash_app.
Qed.

Lemma starts_with_slash (s : string) : starts_with "/" s = is_absolute s.
Proof.
  destruct s as [|x s]; [reflexivity|]. cbn [starts_with is_absolute].
  rewrite andb_true_r. apply bool_decide_ext. split; congruence.
Qed.

Lemma starts_with_cons (x : ascii) (p s : string) :
  starts_with (String x p) (String x s) = starts_with p s.
Proof. cbn [starts_with]. by rewrite bool_decide_eq_true_2. Qed.

Lemma initial_slashes_slashes (n : nat) (s : string) :
  n = 1%nat ∨ n = 2%nat → is_absolute s = false →
  initial_slashes (slashes n +:+ s) = n.
Proof.
  intros [->| ->] Hs; unfold initial_slashes; cbn [slashes];
    rewrite !string_app_cons; change (EmptyString +:+ s) with s;
    rewrite !starts_with_cons, ?starts_with_slash, ?Hs; reflexivity.
Qed.

Lemma fold_normpath_plain (n : nat) (B acc : list string) :
  Forall plain_component B → fold_left (normpath_step n) B acc = acc ++ B.
Proof.
  revert acc. induction B as [|b B IH]; intros acc HB; [by rewrite app_nil_r|].
  apply Forall_cons in HB as [(H1 & H2 & H3 & _) HB].
  cbn [fold_left]. unfold normpath_step at 2.
  rewrite bool_decide_eq_false_2 by tauto.
  rewrite bool_decide_eq_true_2 by tauto.
  rewrite IH by done. by rewrite <- app_assoc.
Qed.

Lemma fold_normpath_empty (n k : nat) (acc : list string) :
  fold_left (normpath_step n) (replicate k EmptyString) acc = acc.
Proof.
  induction k as [|k IH]; [reflexivity|]. cbn [replicate fold_left].
  unfold normpath_step at 2. rewrite bool_decide_eq_true_2 by tauto. exact IH.
Qed.

Lemma Forall_removelast {A : Type} (P : A → Prop) (l : list A) :
  Forall P l → Forall P (removelast l).
Proof.
  induction l as [|x l IH]; [done|]. intros [Hx Hl]%Forall_cons.
  cbn [removelast]. destruct l; [constructor|]. constructor; [done|by apply IH].
Qed.

Lemma normpath_step_plain (n : nat) (acc : list string) (comp : string) :
  n ≠ 0%nat → Forall plain_component acc → has_slash comp = false →
  Forall plain_component (normpath_step n acc comp).
Proof.
  intros Hn Hacc Hc. unfold normpath_step.
  destruct (bool_decide (comp = EmptyString ∨ comp = ".")) eqn:E1; [done|].
  apply bool_decide_eq_false in E1.
  destruct (bool_decide _) eqn:E2; [|by apply Forall_removelast].
  apply bool_decide_eq_true in E2. apply Forall_app. split; [done|].
  constructor; [|constructor]. split_and!; [tauto|tauto| |done].
  intros ->. destruct E2 as [E2|[[E2 _]|E2]]; [done|done|].
  apply last_Some in E2 as [l' ->]. apply Forall_app in Hacc as [_ Hl].
  apply Forall_cons in Hl as [(_ & _ & Hl & _) _]. done.
Qed.

Lemma fold_normpath_step_plain (n : nat) (comps acc : list string) :
  n ≠ 0%nat → Forall plain_component acc →
  Forall (λ c, has_slash c = false) comps →
  Forall plain_component (fold_left (normpath_step n) comps acc).
Proof.
  intros Hn. revert acc. induction comps as [|c comps IH]; intros acc Hacc Hc; [done|].
  apply Forall_cons in Hc as [Hc Hcs]. cbn [fold_left].
  apply IH; [|done]. by apply normpath_step_plain.
Qed.

(** [normpath] leaves a path in normal form (one or two leading slashes,
    then plain components) as it is. *)
Lemma normpath_normal_form (n : nat) (C : list string) :
  n = 1%nat ∨ n = 2%nat → Forall plain_component C →
  os_path_normpath (slashes n +:+ join_slash C) = slashes n +:+ join_slash C.
Proof.
  intros Hn HC. unfold os_path_normpath.
  assert (Hne : ∀ s, slashes n +:+ s ≠ EmptyString) by (by destruct Hn as [->| ->]).
  rewrite bool_decide_eq_false_2 by apply Hne. cbv zeta.
  rewrite initial_slashes_slashes by (done || by apply join_slash_not_absolute).
  rewrite split_slash_slashes, fold_left_app, fold_normpath_empty.
  assert (E : fold_left (normpath_step n) (split_slash (join_slash C)) [] = C).
  { destruct (decide (C = [])) as [->|HCne].
    - cbn. unfold normpath_step. by rewrite bool_decide_eq_true_2 by tauto.
    - rewrite split_join_slash by (done || by apply plain_has_no_slash).
      by rewrite fold_normpath_plain. }
  rewrite E. by rewrite bool_decide_eq_false_2 by apply Hne.
Qed.

(** An absolute path that [normpath] leaves as it is is in normal form. *)
Lemma normal_form_of_normalised (p : string) :
  is_absolute p = true → os_path_normpath p = p →
  ∃ n C, (n = 1%nat ∨ n = 2%nat) ∧ Forall plain_component C ∧
         p = slashes n +:+ join_slash C.
Proof.
  intros Habs Hnorm.
  exists (initial_slashes p),
    (fold_left (normpath_step (initial_slashes p)) (split_slash p) []).
  assert (Hn : initial_slashes p = 1%nat ∨ initial_slashes p = 2%nat).
  { unfold initial_slashes. rewrite starts_with_slash, Habs.
    destruct (_ && _); tauto. }
  split_and!; [exact Hn| |].
  - apply fold_normpath_step_plain; [lia|constructor|apply split_slash_has_no_slash].
  - unfold os_path_normpath in Hnorm.
    rewrite bool_decide_eq_false_2 in Hnorm by (by destruct p).
    cbv zeta in Hnorm. rewrite bool_decide_eq_false_2 in Hnorm; [done|].
    by destruct Hn as [-> | ->].
Qed.

(** Joining plain relative components to a normal form gives a normal
    form. *)
Lemma join_normal_form (n : nat) (C B : list string) :
  n = 1%nat ∨ n = 2%nat → Forall plain_component C →
  B ≠ [] → Forall plain_component B →
  os_path_join (slashes n +:+ join_slash C) (join_slash B)
  = slashes n +:+ join_slash (C ++ B).
Proof.
  intros Hn HC HBne HB.
  rewrite os_path_join_relative by (by apply join_slash_not_absolute).
  unfold dir_prefix.
  rewrite (bool_decide_eq_false_2 (_ = EmptyString)) by (by destruct Hn as [-> | ->]).
  cbn [orb].
  destruct (decide (C = [])) as [->|HCne].
  - cbn [join_slash app]. rewrite string_app_nil_r.
    by destruct Hn as [-> | ->].
  - destruct (join_slash_plain_end C HCne HC) as [E1 E2].
    rewrite ends_with_slash_app, E2 by done.
    rewrite join_slash_app by done.
    by rewrite !string_app_assoc.
Qed.

(** With a working directory that is an absolute path in normal form (what
    [os.getcwd()] returns), [abspath] of plain relative components is their
    join with the working directory: there is nothing to normalise. *)
Lemma abspath_plain (cwd : string) (B : list string) :
  is_absolute cwd = true → os_path_normpath cwd = cwd →
  B ≠ [] → Forall plain_component B →
  Strike.os_path_abspath cwd (join_slash B) = dir_prefix cwd +:+ join_slash B.
Proof.
  intros Habs Hnorm HBne HB.
  rewrite <- os_path_join_relative by (by apply join_slash_not_absolute).
  destruct (normal_form_of_normalised cwd Habs Hnorm) as (n & C & Hn & HC & ->).
  unfold Strike.os_path_abspath. rewrite join_normal_form by done.
  apply normpath_normal_form; [done|]. apply Forall_app. by split.
Qed.

(** [abspath] normalises: under the root no separator is doubled, and
    ["."], [".."] and doubled separators of an executable path are resolved. *)
Example abspath_normalises :
  Strike.os_path_abspath "/" "strike/in.con" = "/strike/in.con" ∧
  Strike.os_path_abspath "/" "strike" = "/strike" ∧
  Strike.exe_path (Strike.init "/home/u" "./bin/../tools//strike")
  = "/home/u/tools/strike" ∧
  Strike.exe_path (Strike.init "/home/u" "../../../opt/strike") = "/opt/strike".
Proof. split_and!; reflexivity. Qed.

(** ** Strike *)

Lemma IO_bind_run {A B : Type} (m : IO A) (f : A → IO B) (w : World) :
  (m ≫= f) w = match m w with
               | (Ok a, w') => f a w'
               | (Raise e, w') => (Raise e, w')
               end.
Proof. reflexivity. Qed.

Section Strike_facts.
Variable cwd : string.
Variable urlopen : string → response.
Variable decode : string → result string.
Variable tool : string → gmap string string → string → string → result R.

Local Abbreviation resolve := (Strike.resolve cwd).
Local Abbreviation get_pdb := (Strike.get_pdb cwd urlopen decode).
Local Abbreviation compute := (Strike.compute cwd urlopen decode tool).
Local Abbreviation evaluate := (Strike.evaluate cwd urlopen decode tool).

Lemma get_pdb_present (pdb_id : string) (w : World) :
  is_Some (files w !! resolve ("strike/" +:+ pdb_id +:+ ".pdb")) →
  get_pdb pdb_id w = (Ok ("strike/" +:+ pdb_id +:+ ".pdb"), w).
Proof.
  intros Hp. unfold Strike.get_pdb. rewrite IO_bind_run.
  unfold Strike.is_file at 1. rewrite bool_decide_eq_true_2 by exact Hp.
  reflexivity.
Qed.

Lemma get_pdb_absent (pdb_id : string) (w : World) :
  files w !! resolve ("strike/" +:+ pdb_id +:+ ".pdb") = None →
  get_pdb pdb_id w
  = match urlopen ("https://files.rcsb.org/download/" +:+ pdb_id +:+ ".pdb") with
    | RaisesHTTPError =>
        (Raise StructureNotFound,
         mkWorld (files w) (dirs w)
           (trace w ++ [EvUrlopen ("https://files.rcsb.org/download/" +:+ pdb_id +:+ ".pdb")]))
    | RaisesURLError =>
        (Raise URLError,
         mkWorld (files w) (dirs w)
           (trace w ++ [EvUrlopen ("https://files.rcsb.org/download/" +:+ pdb_id +:+ ".pdb")]))
    | Body bytes =>
        let local := resolve ("strike/" +:+ pdb_id +:+ ".pdb") in
        let url := "https://files.rcsb.org/download/" +:+ pdb_id +:+ ".pdb" in
        if decide (dirname local ∈ dirs w) then
          match decode bytes with
          | Ok text =>
              (Ok ("strike/" +:+ pdb_id +:+ ".pdb"),
               mkWorld (<[local := text]> (files w)) (dirs w)
                 (trace w ++ [EvUrlopen url; EvOpenW local; EvWrite local text]))
          | Raise e =>
              (Raise e,
               mkWorld (<[local := EmptyString]> (files w)) (dirs w)
                 (trace w ++ [EvUrlopen url; EvOpenW local]))
          end
        else (Raise FileNotFoundError,
              mkWorld (files w) (dirs w) (trace w ++ [EvUrlopen url]))
    end.
Proof.
  intros Hp. unfold Strike.get_pdb. rewrite IO_bind_run.
  unfold Strike.is_file at 1. rewrite bool_decide_eq_false_2
    by (rewrite Hp; apply is_Some_None).
  cbn [negb]. rewrite !IO_bind_run. unfold Strike.fetch. rewrite IO_bind_run.
  unfold log. destruct (urlopen _) as [bytes| |]; [|reflexivity..].
  cbn [mret IO_ret]. rewrite !IO_bind_run. unfold Strike.open_w. cbn [dirs].
  destruct (decide _) as [Hd|Hd]; [|reflexivity].
  rewrite IO_bind_run. unfold lift. cbn [files dirs trace].
  destruct (decode bytes) as [text|e].
  - unfold Strike.write. cbn [files dirs trace].
    rewrite lookup_insert_eq, insert_insert_eq, <- !app_assoc. reflexivity.
  - rewrite <- !app_assoc. reflexivity.
Qed.

Lemma os_makedirs_run (p : string) (w : World) :
  files w !! p = None →
  Strike.os_makedirs p w
  = (Ok (), mkWorld (files w) ({[ p ]} ∪ dirs w) (trace w ++ [EvMakedirs p])).
Proof.
  intros Hp. unfold Strike.os_makedirs.
  by rewrite decide_False by (rewrite Hp; apply is_Some_None).
Qed.

(** A regular file at the staging directory's path stops [evaluate] at
    once. *)
Lemma evaluate_blocked (self : Strike.t) (seqs ids chains : list string) (w : World) :
  is_Some (files w !! Strike.os_path_abspath cwd "strike") →
  evaluate self seqs ids chains w = (Raise FileExistsError, w).
Proof.
  intros Hp. unfold Strike.evaluate. rewrite IO_bind_run.
  unfold Strike.os_makedirs at 1. by rewrite decide_True by exact Hp.
Qed.

Lemma evaluate_skips (self : Strike.t) (seqs ids chains : list string) (w : World) :
  files w !! Strike.os_path_abspath cwd "strike" = None →
  is_Some (files w !! resolve (Strike.out_connection_path self)) ∨
  is_Some (files w !! resolve (Strike.out_alignment_path self)) →
  evaluate self seqs ids chains w = skip_outcome cwd tool self w.
Proof.
  intros Hdir Hp. unfold Strike.evaluate, skip_outcome, skip_events.
  rewrite IO_bind_run, os_makedirs_run by exact Hdir.
  rewrite IO_bind_run. unfold Strike.is_file at 1. cbn [files].
  destruct (decide (is_Some (files w !! resolve (Strike.out_connection_path self))))
    as [Hc|Hc].
  - rewrite bool_decide_eq_true_2 by exact Hc.
    rewrite !IO_bind_run. cbn [mret IO_ret]. rewrite !IO_bind_run. cbn [mret IO_ret].
    unfold Strike.run_tool. cbn [files dirs trace].
    rewrite <- app_assoc. reflexivity.
  - rewrite bool_decide_eq_false_2 by exact Hc.
    destruct Hp as [Hp|Hp]; [done|].
    rewrite !IO_bind_run. unfold Strike.is_file at 1. cbn [files].
    rewrite bool_decide_eq_true_2 by exact Hp.
    cbn [mret IO_ret negb]. rewrite !IO_bind_run. cbn [mret IO_ret].
    unfold Strike.run_tool. cbn [files dirs trace].
    rewrite <- app_assoc. reflexivity.
Qed.

Lemma calls_skip (self : Strike.t)
    (calls : list (list string * list string * list string)) (w : World) :
  files w !! Strike.os_path_abspath cwd "strike" = None →
  is_Some (files w !! resolve (Strike.out_connection_path self)) →
  is_Some (files w !! resolve (Strike.out_alignment_path self)) →
  files (Strike_calls cwd urlopen decode tool self calls w) = files w ∧
  trace (Strike_calls cwd urlopen decode tool self calls w)
  = trace w ++ concat (map (λ _, skip_events cwd self) calls).
Proof.
  unfold Strike_calls. revert w.
  induction calls as [|[[seqs ids] chains] calls IH]; intros w Hdir Hc Ha.
  - cbn. by rewrite app_nil_r.
  - cbn [fold_left map concat]. unfold Strike.compute at 2 4.
    rewrite evaluate_skips by (done || by left). unfold skip_outcome. cbn [snd].
    destruct (IH (mkWorld (files w)
                    ({[Strike.os_path_abspath cwd "strike"]} ∪ dirs w)
                    (trace w ++ skip_events cwd self))) as [IH1 IH2];
      [exact Hdir|exact Hc|exact Ha|].
    cbn [files trace] in IH1, IH2. rewrite IH1, IH2.
    by rewrite <- app_assoc.
Qed.
End Strike_facts.




(** ** Further properties of the metrics *)

Lemma sumR_map_zero {A : Type} (f : A → R) (l : list A) :
  (∀ x, x ∈ l → f x = 0%R) → sumR (map f l) = 0%R.
Proof.
  induction l as [|x l IH]; intros Hz; [reflexivity|].
  cbn [map]. rewrite sumR_cons, Hz, IH by (try left; intros; apply Hz; by right). lra.
Qed.

Lemma sumR_map_nonpos {A : Type} (f : A → R) (l : list A) :
  (∀ x, x ∈ l → (f x <= 0)%R) → (sumR (map f l) <= 0)%R.
Proof.
  induction l as [|x l IH]; intros Hz; [cbn; lra|].
  cbn [map]. rewrite sumR_cons.
  assert (f x <= 0)%R by (apply Hz; left).
  assert (sumR (map f l) <= 0)%R by (apply IH; intros; apply Hz; by right). lra.
Qed.

Lemma frequency_le_1 (col : list ascii) (c : ascii) :
  col ≠ [] → (frequency col c <= 1)%R.
Proof.
  intros Hne. unfold frequency.
  assert (0 < IZR (Z.of_nat (length col)))%R.
  { apply IZR_lt. destruct col; [done|]. cbn [length]. lia. }
  assert (IZR (Z.of_nat (list_count c col)) <= IZR (Z.of_nat (length col)))%R.
  { apply IZR_le. pose proof (length_filter (λ x, x = c) col). unfold list_count. lia. }
  apply (Rmult_le_reg_r (IZR (Z.of_nat (length col)))); [assumption|].
  unfold Rdiv. rewrite Rmult_assoc, Rinv_l by lra. lra.
Qed.

Lemma frequency_conserved (col : list ascii) (c : ascii) :
  c ∈ col → (∀ a b, a ∈ col → b ∈ col → a = b) → frequency col c = 1%R.
Proof.
  intros Hc Hall. unfold frequency.
  rewrite list_count_all by (intros x Hx; by apply Hall).
  field. apply not_0_IZR. destruct col; [by apply not_elem_of_nil in Hc|].
  cbn [length]. lia.
Qed.

(** X2: when every row of a non-empty alignment is the same sequence,
    [Entropy.evaluate] returns 0: every frequency is 1 and [ln 1 = 0]. *)
Theorem Entropy_fully_conserved_is_zero (sequences : list string) :
  sequences ≠ [] → fully_conserved sequences →
  Entropy.evaluate sequences = Ok 0%R.
Proof.
  intros Hne Hc.
  assert (Heq : equal_length sequences).
  { apply Forall_forall. intros s Hs.
    destruct sequences as [|first l]; [done|]. cbn. f_equal. apply Hc; [exact Hs|left]. }
  rewrite Entropy_evaluate_formula by done. f_equal.
  unfold entropy_per_distinct_symbol. apply sumR_map_zero. intros k _.
  cbv zeta. apply sumR_map_zero. intros c Hcin. rewrite elem_of_distinct in Hcin.
  rewrite frequency_conserved, ln_1; [lra|exact Hcin|].
  intros a b. by apply fully_conserved_column.
Qed.

Lemma Entropy_fully_conserved_is_zero_witness :
  ["ACG"; "ACG"] ≠ [] ∧ fully_conserved ["ACG"; "ACG"] ∧
  Entropy.evaluate ["ACG"; "ACG"] = Ok 0%R.
Proof.
  assert (Hne : ["ACG"; "ACG"] ≠ []) by discriminate.
  assert (Hc : fully_conserved ["ACG"; "ACG"]).
  { intros s s' Hs Hs'. apply elem_of_cons in Hs as [->|Hs];
      [|apply list_elem_of_singleton in Hs as ->];
      (apply elem_of_cons in Hs' as [->|Hs'];
       [|apply list_elem_of_singleton in Hs' as ->]); reflexivity. }
  split; [exact Hne|]. split; [exact Hc|].
  exact (Entropy_fully_conserved_is_zero _ Hne Hc).
Defined.

(** X3: on a valid alignment [Entropy.evaluate] succeeds and its value is
    never positive: each term is [f * ln f] with [0 < f <= 1]. *)
Theorem Entropy_evaluate_nonpositive (sequences : list string) :
  valid_alignment sequences →
  ∃ e, Entropy.evaluate sequences = Ok e ∧ (e <= 0)%R.
Proof.
  intros Hv. exists (entropy_per_distinct_symbol sequences).
  split; [by apply Entropy_evaluate_formula|].
  unfold entropy_per_distinct_symbol. apply sumR_map_nonpos. intros k _.
  cbv zeta. apply sumR_map_nonpos. intros c Hcin. rewrite elem_of_distinct in Hcin.
  pose proof (frequency_pos _ _ Hcin) as Hpos.
  assert (Hle : (frequency (column sequences k) c <= 1)%R).
  { apply frequency_le_1. intros E. rewrite E in Hcin. by apply not_elem_of_nil in Hcin. }
  assert (Hln : (ln (frequency (column sequences k) c) <= 0)%R).
  { rewrite <- ln_1. destruct Hle as [Hlt|Heq1]; [|rewrite Heq1; lra].
    left. apply ln_increasing; assumption. }
  nra.
Qed.

Lemma Entropy_evaluate_nonpositive_witness :
  valid_alignment ["AC"; "A-"; "GC"] ∧
  ∃ e, Entropy.evaluate ["AC"; "A-"; "GC"] = Ok e ∧ (e <= 0)%R.
Proof.
  assert (Hv : valid_alignment ["AC"; "A-"; "GC"])
    by (split; [discriminate|repeat constructor]).
  split; [exact Hv|]. exact (Entropy_evaluate_nonpositive _ Hv).
Defined.

Lemma for_each_raise {A B : Type} (xs : list A) (body : A → B → result B)
    (e : exn) (acc : B) :
  (∀ x a, x ∈ xs → (∃ b, body x a = Ok b) ∨ body x a = Raise e) →
  (∃ x, x ∈ xs ∧ ∀ a, body x a = Raise e) →
  for_each xs body acc = Raise e.
Proof.
  revert acc. induction xs as [|x xs IH]; intros acc Hall (x0 & Hin & Hbad).
  - by apply not_elem_of_nil in Hin.
  - cbn [for_each]. destruct (Hall x acc) as [[b Hb]|Hb]; [left| |by rewrite Hb].
    rewrite Hb, bind_Ok. apply elem_of_cons in Hin as [->|Hin].
    + rewrite Hbad in Hb. discriminate.
    + apply IH; [|eauto]. intros y a Hy. apply Hall. by right.
Qed.

Lemma mapM_Ok_or_raise {A B : Type} (f : A → result B) (e : exn) (l : list A) :
  (∀ x, x ∈ l → (∃ b, f x = Ok b) ∨ f x = Raise e) →
  (∃ l', mapM f l = Ok l' ∧ length l' = length l) ∨ mapM f l = Raise e.
Proof.
  induction l as [|x l IH]; intros Hall; [left; by exists []|].
  cbn [mapM]. destruct (Hall x) as [[b Hb]|Hb]; [left| |right; by rewrite Hb].
  rewrite Hb, bind_Ok.
  destruct IH as [(l' & E & Hlen)|E]; [intros; apply Hall; by right| |].
  - left. exists (b :: l'). rewrite E. cbn. by rewrite Hlen.
  - right. by rewrite E.
Qed.

Lemma mapM_raise {A B : Type} (f : A → result B) (e : exn) (l : list A) :
  (∀ x, x ∈ l → (∃ b, f x = Ok b) ∨ f x = Raise e) →
  (∃ x, x ∈ l ∧ f x = Raise e) → mapM f l = Raise e.
Proof.
  induction l as [|x l IH]; intros Hall (x0 & Hin & Hbad).
  - by apply not_elem_of_nil in Hin.
  - cbn [mapM]. destruct (Hall x) as [[b Hb]|Hb]; [left| |by rewrite Hb].
    rewrite Hb, bind_Ok. apply elem_of_cons in Hin as [->|Hin]; [congruence|].
    rewrite IH; [reflexivity| |eauto]. intros; apply Hall; by right.
Qed.

Lemma str_index_cases (s : string) (k : nat) :
  (∃ c, str_index s k = Ok c) ∨ str_index s k = Raise IndexError.
Proof. unfold str_index. destruct (chars s !! k); eauto. Qed.

Lemma str_index_out_of_range (s : string) (k : nat) :
  (len s ≤ k)%nat → str_index s k = Raise IndexError.
Proof.
  intros Hk. unfold str_index. rewrite (proj2 (lookup_ge_None _ _)); [reflexivity|].
  exact Hk.
Qed.

Lemma get_column_cases (sequences : list string) (k : nat) :
  (∃ col, get_column sequences k = Ok col ∧ length col = length sequences) ∨
  get_column sequences k = Raise IndexError.
Proof. apply mapM_Ok_or_raise. intros s _. apply str_index_cases. Qed.

Lemma get_column_short (sequences : list string) (k : nat) (s : string) :
  s ∈ sequences → (len s ≤ k)%nat → get_column sequences k = Raise IndexError.
Proof.
  intros Hs Hk. apply mapM_raise; [intros; apply str_index_cases|].
  exists s. split; [exact Hs|by apply str_index_out_of_range].
Qed.

(** The column loop of the four column-wise metrics, when a row is
    shorter than the first one. *)
Lemma column_loop_short {B : Type} (sequences : list string)
    (score : list ascii → B → result B) (acc : B) :
  (∀ col b, col ≠ [] → ∃ b', score col b = Ok b') →
  (∃ s, s ∈ sequences ∧ (len s < alignment_length sequences)%nat) →
  for_each (range (alignment_length sequences))
    (λ k b, column ← get_column sequences k; score column b) acc
  = Raise IndexError.
Proof.
  intros Hscore (s & Hs & Hlen). apply for_each_raise.
  - intros k b _. destruct (get_column_cases sequences k) as [(col & -> & Hl)| ->];
      [left|by right].
    rewrite bind_Ok. apply Hscore. intros ->.
    destruct sequences; [by apply not_elem_of_nil in Hs|discriminate].
  - exists (len s). split; [by apply elem_of_range|].
    intros b. by rewrite (get_column_short sequences (len s) s).
Qed.

(** X6: called without the validation of [compute], the four column-wise
    metrics raise IndexError as soon as some sequence is shorter than the
    first one. *)
Theorem evaluate_short_sequence_raises_IndexError (sequences : list string) :
  (∃ s, s ∈ sequences ∧ (len s < alignment_length sequences)%nat) →
  Entropy.evaluate sequences = Raise IndexError ∧
  (∀ m, Star.evaluate m sequences = Raise IndexError) ∧
  (∀ m, SumOfPairs.evaluate m sequences = Raise IndexError) ∧
  PercentageOfTotallyConservedColumns.evaluate sequences = Raise IndexError.
Proof.
  intros Hshort.
  destruct sequences as [|first l];
    [destruct Hshort as (s & Hs & _); by apply not_elem_of_nil in Hs|].
  split_and!.
  - unfold Entropy.evaluate. rewrite list_first_cons, bind_Ok.
    change (len first) with (alignment_length (first :: l)).
    apply (column_loop_short (first :: l)
             (λ column final_score,
                column_chars_and_frequencies ← Entropy.get_words_frequencies column;
                e ← Entropy.get_column_entropy column_chars_and_frequencies;
                mret (final_score + e)%R)); [|exact Hshort].
    intros col b _. rewrite get_words_frequencies_spec, bind_Ok.
    rewrite get_column_entropy_spec, bind_Ok. eauto.
  - intros m. unfold Star.evaluate. rewrite list_first_cons, bind_Ok.
    change (len first) with (alignment_length (first :: l)).
    apply (column_loop_short (first :: l)
             (λ column final_score,
                s ← Star.get_score_of_k_column m column;
                mret (final_score + s)%Z)); [|exact Hshort].
    intros col b Hcol.
    destruct (Star_get_score_of_k_column_spec m col Hcol) as (c & _ & ->).
    rewrite bind_Ok. eauto.
  - intros m. unfold SumOfPairs.evaluate. rewrite list_first_cons, bind_Ok.
    change (len first) with (alignment_length (first :: l)).
    apply (column_loop_short (first :: l)
             (λ column final_score,
                s ← SumOfPairs.get_score_of_k_column m column;
                mret (final_score + s)%Z)); [|exact Hshort].
    intros col b _. rewrite SumOfPairs_get_score_of_k_column_spec, bind_Ok. eauto.
  - unfold PercentageOfTotallyConservedColumns.evaluate.
    rewrite list_first_cons, bind_Ok.
    change (len first) with (alignment_length (first :: l)).
    rewrite (column_loop_short (first :: l)
               (λ column no_of_conserved_columns,
                  mret (if PercentageOfTotallyConservedColumns.is_conserved column
                        then (no_of_conserved_columns + 1)%Z
                        else no_of_conserved_columns))); [reflexivity| |exact Hshort].
    intros col b _. eauto.
Qed.

Lemma evaluate_short_sequence_raises_IndexError_witness :
  (∃ s, s ∈ ["ACG"; "AC"] ∧ (len s < alignment_length ["ACG"; "AC"])%nat) ∧
  Entropy.evaluate ["ACG"; "AC"] = Raise IndexError ∧
  PercentageOfTotallyConservedColumns.evaluate ["ACG"; "AC"] = Raise IndexError.
Proof.
  assert (Hs : ∃ s, s ∈ ["ACG"; "AC"] ∧ (len s < alignment_length ["ACG"; "AC"])%nat).
  { exists "AC". split; [right; left|vm_compute; lia]. }
  split; [exact Hs|].
  destruct (evaluate_short_sequence_raises_IndexError _ Hs) as (E1 & _ & _ & E4).
  exact (conj E1 E4).
Defined.

(** ** Bounds of the percentages *)

Lemma total_gaps_bounds (sequences : list string) :
  equal_length sequences →
  (0 ≤ total_gaps sequences
     ≤ Z.of_nat (alignment_length sequences) * Z.of_nat (length sequences))%Z.
Proof.
  intros Heq. split; [unfold total_gaps; lia|].
  rewrite <- sum_count_gaps.
  unfold equal_length in Heq. revert Heq.
  generalize (alignment_length sequences) as L. intros L Heq.
  induction Heq as [|s l Hs _ IH]; [cbn; lia|].
  cbn [map length]. rewrite sumZ_cons.
  assert (PercentageOfNonGaps.count_gaps s ≤ Z.of_nat L)%Z.
  { unfold PercentageOfNonGaps.count_gaps. rewrite <- Hs. unfold len, list_count.
    pose proof (length_filter (λ x, x = "-"%char) (chars s)). lia. }
  lia.
Qed.

Lemma percentage_bounds (a b : Z) :
  (0 ≤ a ≤ b)%Z → (0 < b)%Z →
  (0 <= IZR a / IZR b * 100 <= 100)%R.
Proof.
  intros [Ha Hab] Hb.
  apply IZR_le in Ha, Hab. apply IZR_lt in Hb.
  assert (0 <= IZR a / IZR b <= 1)%R; [|lra].
  split.
  - apply Rmult_le_pos; [exact Ha|]. left. by apply Rinv_0_lt_compat.
  - apply (Rmult_le_reg_r (IZR b)); [exact Hb|].
    unfold Rdiv. rewrite Rmult_assoc, Rinv_l by lra. lra.
Qed.

(** X7: on a valid alignment of non-empty sequences
    [PercentageOfNonGaps.evaluate] succeeds with a value between 0 and 100. *)
Theorem PercentageOfNonGaps_within_0_100 (sequences : list string) :
  valid_alignment sequences → (0 < alignment_length sequences)%nat →
  ∃ p, PercentageOfNonGaps.evaluate sequences = Ok p ∧ (0 <= p <= 100)%R.
Proof.
  intros [Hne Heq] HL. eexists. split.
  - by apply PercentageOfNonGaps_evaluate_formula.
  - pose proof (total_gaps_bounds sequences Heq) as Hb.
    assert (0 < Z.of_nat (alignment_length sequences) * Z.of_nat (length sequences))%Z.
    { destruct sequences; [done|]. cbn [length] in *. lia. }
    pose proof (percentage_bounds _ _ Hb H). lra.
Qed.

Lemma PercentageOfNonGaps_within_0_100_witness :
  valid_alignment ["A-C"; "--G"] ∧ (0 < alignment_length ["A-C"; "--G"])%nat ∧
  ∃ p, PercentageOfNonGaps.evaluate ["A-C"; "--G"] = Ok p ∧ (0 <= p <= 100)%R.
Proof.
  assert (Hv : valid_alignment ["A-C"; "--G"])
    by (split; [discriminate|repeat constructor]).
  assert (HL : (0 < alignment_length ["A-C"; "--G"])%nat) by (vm_compute; lia).
  split; [exact Hv|]. split; [exact HL|].
  exact (PercentageOfNonGaps_within_0_100 _ Hv HL).
Defined.

Lemma conserved_columns_bounds (sequences : list string) :
  (0 ≤ conserved_columns sequences ≤ Z.of_nat (alignment_length sequences))%Z.
Proof.
  unfold conserved_columns. split; [lia|].
  match goal with |- context [filter ?P ?l] => pose proof (length_filter P l) as H end.
  unfold range in H at 2. rewrite length_seq in H. lia.
Qed.

(** X9: on a valid alignment of non-empty sequences
    [PercentageOfTotallyConservedColumns.evaluate] succeeds with a value
    between 0 and 100. *)
Theorem PercentageOfTotallyConservedColumns_within_0_100 (sequences : list string) :
  valid_alignment sequences → (0 < alignment_length sequences)%nat →
  ∃ p, PercentageOfTotallyConservedColumns.evaluate sequences = Ok p ∧
       (0 <= p <= 100)%R.
Proof.
  intros Hv HL. eexists. split.
  - by apply PercentageOfTotallyConservedColumns_evaluate_formula.
  - apply percentage_bounds; [apply conserved_columns_bounds|lia].
Qed.

Lemma PercentageOfTotallyConservedColumns_within_0_100_witness :
  valid_alignment ["AC"; "AC"; "AG"] ∧
  (0 < alignment_length ["AC"; "AC"; "AG"])%nat ∧
  ∃ p, PercentageOfTotallyConservedColumns.evaluate ["AC"; "AC"; "AG"] = Ok p ∧
       (0 <= p <= 100)%R.
Proof.
  assert (Hv : valid_alignment ["AC"; "AC"; "AG"])
    by (split; [discriminate|repeat constructor]).
  assert (HL : (0 < alignment_length ["AC"; "AC"; "AG"])%nat) by (vm_compute; lia).
  split; [exact Hv|]. split; [exact HL|].
  exact (PercentageOfTotallyConservedColumns_within_0_100 _ Hv HL).
Defined.

(** ** When the percentages reach their extremes *)

Lemma percentage_eq_100 (a b : Z) :
  (0 < b)%Z → (IZR a / IZR b * 100)%R = 100%R → a = b.
Proof.
  intros Hb H. apply eq_IZR. apply IZR_lt in Hb.
  assert (E : (IZR a / IZR b = 1)%R) by lra.
  apply (f_equal (λ x, x * IZR b)%R) in E.
  unfold Rdiv in E. rewrite Rmult_assoc, Rinv_l in E by lra. lra.
Qed.

Lemma percentage_eq_0 (a b : Z) :
  (0 < b)%Z → (IZR a / IZR b * 100)%R = 0%R → a = 0%Z.
Proof.
  intros Hb H. apply eq_IZR. apply IZR_lt in Hb.
  assert (E : (IZR a / IZR b = 0)%R) by lra.
  apply (f_equal (λ x, x * IZR b)%R) in E.
  unfold Rdiv in E. rewrite Rmult_assoc, Rinv_l in E by lra. lra.
Qed.

Lemma filter_length_all {A : Type} (P : A → Prop) `{∀ x, Decision (P x)} (l : list A) :
  length (filter P l) = length l → ∀ x, x ∈ l → P x.
Proof.
  induction l as [|a l IH]; intros Hlen x Hx; [by apply not_elem_of_nil in Hx|].
  rewrite filter_cons in Hlen. destruct (decide (P a)) as [Ha|Ha].
  - cbn [length] in Hlen. apply elem_of_cons in Hx as [->|Hx]; [exact Ha|].
    apply IH; [lia|exact Hx].
  - pose proof (length_filter P l). cbn [length] in Hlen. lia.
Qed.

Lemma list_count_full {A : Type} `{EqDecision A} (w : A) (l : list A) :
  list_count w l = length l → ∀ x, x ∈ l → x = w.
Proof. unfold list_count. apply filter_length_all. Qed.

Lemma list_count_zero {A : Type} `{EqDecision A} (w : A) (l : list A) :
  list_count w l = 0%nat → w ∉ l.
Proof. intros H0 Hin. pose proof (list_count_pos w l Hin). lia. Qed.

Lemma chars_inj (s s' : string) : chars s = chars s' → s = s'.
Proof.
  intros E. rewrite <- (string_of_list_ascii_of_string s),
    <- (string_of_list_ascii_of_string s'). unfold chars in E. by rewrite E.
Qed.

Lemma rows_equal_of_columns (sequences : list string) :
  equal_length sequences →
  (∀ k, (k < alignment_length sequences)%nat →
        ∀ a b, a ∈ column sequences k → b ∈ column sequences k → a = b) →
  fully_conserved sequences.
Proof.
  intros Heq Hcols s s' Hs Hs'. apply chars_inj.
  unfold equal_length in Heq. rewrite Forall_forall in Heq.
  pose proof (Heq s Hs) as Hl. pose proof (Heq s' Hs') as Hl'. unfold len in Hl, Hl'.
  apply list_eq. intros k.
  destruct (decide (k < alignment_length sequences)%nat) as [Hk|Hk].
  - destruct (lookup_lt_is_Some_2 (chars s) k) as [c Hc]; [lia|].
    destruct (lookup_lt_is_Some_2 (chars s') k) as [c' Hc']; [lia|].
    rewrite Hc, Hc'. f_equal. apply (Hcols k Hk); unfold column.
    + apply list_elem_of_In, in_map_iff. exists s.
      split; [unfold symbol_at; by rewrite Hc|by apply list_elem_of_In].
    + apply list_elem_of_In, in_map_iff. exists s'.
      split; [unfold symbol_at; by rewrite Hc'|by apply list_elem_of_In].
  - rewrite !(proj2 (lookup_ge_None _ _)) by lia. reflexivity.
Qed.

(** X10: on a valid alignment of non-empty sequences
    [PercentageOfTotallyConservedColumns.evaluate] returns 100 exactly when
    all the rows are the same sequence. *)
Theorem PercentageOfTotallyConservedColumns_100_iff_identical_rows
    (sequences : list string) :
  valid_alignment sequences → (0 < alignment_length sequences)%nat →
  (PercentageOfTotallyConservedColumns.evaluate sequences = Ok 100%R ↔
   fully_conserved sequences).
Proof.
  intros Hv HL.
  rewrite PercentageOfTotallyConservedColumns_evaluate_formula by assumption.
  destruct Hv as [Hne Heq]. split.
  - intros [= E]. apply percentage_eq_100 in E; [|lia].
    apply rows_equal_of_columns; [exact Heq|]. intros k Hk.
    apply set_size_le_1_iff.
    unfold conserved_columns in E. apply Nat2Z.inj in E.
    assert (E' : length (filter
              (λ k, size (list_to_set (column sequences k) : gset ascii) ≤ 1)%nat
              (range (alignment_length sequences)))
            = length (range (alignment_length sequences)))
      by (rewrite E; unfold range; by rewrite length_seq).
    apply (filter_length_all _ _ E'). by apply elem_of_range.
  - intros Hc. f_equal.
    assert (E : conserved_columns sequences = Z.of_nat (alignment_length sequences)).
    { unfold conserved_columns. rewrite filter_all.
      - unfold range. by rewrite length_seq.
      - intros k _. apply set_size_le_1_iff. intros a b.
        by apply fully_conserved_column. }
    rewrite E. field. apply not_0_IZR. lia.
Qed.

Lemma PercentageOfTotallyConservedColumns_100_iff_identical_rows_witness :
  valid_alignment ["AC"; "AG"] ∧ (0 < alignment_length ["AC"; "AG"])%nat ∧
  PercentageOfTotallyConservedColumns.evaluate ["AC"; "AG"] ≠ Ok 100%R.
Proof.
  assert (Hv : valid_alignment ["AC"; "AG"])
    by (split; [discriminate|repeat constructor]).
  assert (HL : (0 < alignment_length ["AC"; "AG"])%nat) by (vm_compute; lia).
  split; [exact Hv|]. split; [exact HL|].
  intros E.
  pose proof (proj1 (PercentageOfTotallyConservedColumns_100_iff_identical_rows
                       _ Hv HL) E) as Hc.
  specialize (Hc "AC" "AG" ltac:(left) ltac:(right; left)). discriminate.
Defined.

Lemma sumZ_map_zero_inv {A : Type} (f : A → Z) (l : list A) :
  (∀ x, x ∈ l → 0 ≤ f x)%Z → sumZ (map f l) = 0%Z → ∀ x, x ∈ l → f x = 0%Z.
Proof.
  induction l as [|a l IH]; intros Hpos Hsum x Hx; [by apply not_elem_of_nil in Hx|].
  cbn [map] in Hsum. rewrite sumZ_cons in Hsum.
  assert (0 ≤ f a)%Z by (apply Hpos; left).
  assert (0 ≤ sumZ (map f l))%Z.
  { clear -Hpos. induction l as [|b l IH]; [cbn; lia|].
    cbn [map]. rewrite sumZ_cons.
    assert (0 ≤ f b)%Z by (apply Hpos; right; left).
    assert (0 ≤ sumZ (map f l))%Z; [|lia].
    apply IH. intros y Hy. apply Hpos. apply elem_of_cons in Hy as [->|Hy];
      [left|right; by right]. }
  apply elem_of_cons in Hx as [->|Hx]; [lia|].
  apply IH; [intros; apply Hpos; by right|lia|exact Hx].
Qed.

Lemma sumZ_map_sub {A : Type} (f g : A → Z) (l : list A) :
  sumZ (map (λ x, f x - g x)%Z l) = (sumZ (map f l) - sumZ (map g l))%Z.
Proof.
  induction l as [|a l IH]; [reflexivity|].
  cbn [map]. rewrite !sumZ_cons, IH. lia.
Qed.

(** X8: on a valid alignment of non-empty sequences
    [PercentageOfNonGaps.evaluate] returns 100 exactly when no sequence has
    a gap, and 0 exactly when every symbol is a gap. *)
Theorem PercentageOfNonGaps_extremes (sequences : list string) :
  valid_alignment sequences → (0 < alignment_length sequences)%nat →
  (PercentageOfNonGaps.evaluate sequences = Ok 100%R ↔
   ∀ s, s ∈ sequences → "-"%char ∉ chars s) ∧
  (PercentageOfNonGaps.evaluate sequences = Ok 0%R ↔
   ∀ s c, s ∈ sequences → c ∈ chars s → c = "-"%char).
Proof.
  intros [Hne Heq] HL.
  rewrite PercentageOfNonGaps_evaluate_formula by assumption.
  assert (HN : (0 < Z.of_nat (alignment_length sequences)
                    * Z.of_nat (length sequences))%Z).
  { destruct sequences; [done|]. cbn [length] in *. lia. }
  assert (HNR : IZR (Z.of_nat (alignment_length sequences)
                     * Z.of_nat (length sequences)) ≠ 0%R)
    by (apply not_0_IZR; lia).
  split; split.
  - intros [= E].
    assert (E0 : total_gaps sequences = 0%Z)
      by (apply (percentage_eq_0 _ _ HN); lra).
    rewrite <- sum_count_gaps in E0. intros s Hs.
    apply list_count_zero.
    apply (sumZ_map_zero_inv PercentageOfNonGaps.count_gaps sequences) in Hs;
      [|intros; unfold PercentageOfNonGaps.count_gaps; lia|exact E0].
    unfold PercentageOfNonGaps.count_gaps in Hs. lia.
  - intros Hno. rewrite total_gaps_none by exact Hno. f_equal. field. exact HNR.
  - intros [= E].
    assert (EN : total_gaps sequences
                 = (Z.of_nat (alignment_length sequences)
                    * Z.of_nat (length sequences))%Z)
      by (apply (percentage_eq_100 _ _ HN); lra).
    rewrite <- sum_count_gaps in EN.
    intros s c Hs Hc.
    unfold equal_length in Heq. rewrite Forall_forall in Heq.
    assert (Hd : ∀ x, x ∈ sequences →
              (Z.of_nat (alignment_length sequences)
               - PercentageOfNonGaps.count_gaps x = 0)%Z).
    { apply sumZ_map_zero_inv.
      - intros x Hx. unfold PercentageOfNonGaps.count_gaps.
        rewrite <- (Heq x Hx). unfold len, list_count.
        pose proof (length_filter (λ y, y = "-"%char) (chars x)). lia.
      - rewrite sumZ_map_sub, (sumZ_map_const _ (Z.of_nat (alignment_length sequences)))
          by done. lia. }
    specialize (Hd s Hs). unfold PercentageOfNonGaps.count_gaps in Hd.
    apply (list_count_full "-"%char (chars s)); [|exact Hc].
    pose proof (Heq s Hs) as Hl. unfold len in Hl. lia.
  - intros Hall. rewrite total_gaps_all by assumption. f_equal. field. exact HNR.
Qed.

Lemma PercentageOfNonGaps_extremes_witness :
  valid_alignment ["A-C"; "--G"] ∧ (0 < alignment_length ["A-C"; "--G"])%nat ∧
  PercentageOfNonGaps.evaluate ["A-C"; "--G"] ≠ Ok 100%R.
Proof.
  assert (Hv : valid_alignment ["A-C"; "--G"])
    by (split; [discriminate|repeat constructor]).
  assert (HL : (0 < alignment_length ["A-C"; "--G"])%nat) by (vm_compute; lia).
  split; [exact Hv|]. split; [exact HL|].
  intros E.
  pose proof (proj1 (proj1 (PercentageOfNonGaps_extremes _ Hv HL)) E) as Hno.
  apply (Hno "A-C" ltac:(left)). right. left.
Defined.

(** ** Row order *)

Lemma sumZ_Permutation (l l' : list Z) : l ≡ₚ l' → sumZ l = sumZ l'.
Proof.
  induction 1 as [|x l l' _ IH|x y l|l l' l'' _ IH1 _ IH2].
  - reflexivity.
  - rewrite !sumZ_cons. lia.
  - rewrite !sumZ_cons. lia.
  - congruence.
Qed.

Lemma map_Permutation {A B : Type} (f : A → B) (l l' : list A) :
  l ≡ₚ l' → map f l ≡ₚ map f l'.
Proof. intros H. by apply (fmap_Permutation f). Qed.

(** The sum over the pairs of [itertools.combinations(column, 2)]. *)
Lemma SumOfPairs_get_score_of_k_column_pairs (m : ascii → ascii → Z)
    (col : list ascii) :
  SumOfPairs.get_score_of_k_column m col
  = Ok (sumZ (map (λ ab, m ab.1 ab.2) (combinations_2 col))).
Proof.
  unfold SumOfPairs.get_score_of_k_column, SumOfPairs.possible_combinations.
  rewrite (for_each_sumZ _ _ (λ ab, m ab.1 ab.2)).
  - by rewrite Z.add_0_l.
  - intros [a b] acc _. reflexivity.
Qed.

Lemma pair_sum_cons (m : ascii → ascii → Z) (x : ascii) (l : list ascii) :
  sumZ (map (λ ab, m ab.1 ab.2) (combinations_2 (x :: l)))
  = (sumZ (map (m x) l) + sumZ (map (λ ab, m ab.1 ab.2) (combinations_2 l)))%Z.
Proof.
  cbn [combinations_2]. rewrite map_app, map_map. cbn [fst snd].
  induction (map (m x) l) as [|z zs IH]; [reflexivity|].
  cbn [app]. rewrite !sumZ_cons, IH. lia.
Qed.

Lemma pair_sum_Permutation (m : ascii → ascii → Z) (l l' : list ascii) :
  (∀ a b, m a b = m b a) → l ≡ₚ l' →
  sumZ (map (λ ab, m ab.1 ab.2) (combinations_2 l))
  = sumZ (map (λ ab, m ab.1 ab.2) (combinations_2 l')).
Proof.
  intros Hsym. induction 1 as [|x l l' Hp IH|x y l|l l' l'' _ IH1 _ IH2].
  - reflexivity.
  - rewrite !pair_sum_cons, IH.
    by rewrite (sumZ_Permutation _ _ (map_Permutation (m x) _ _ Hp)).
  - rewrite !pair_sum_cons. cbn [map]. rewrite !sumZ_cons, (Hsym x y). lia.
  - congruence.
Qed.

Lemma valid_alignment_Permutation (sequences sequences' : list string) :
  valid_alignment sequences → sequences ≡ₚ sequences' →
  valid_alignment sequences' ∧
  alignment_length sequences' = alignment_length sequences.
Proof.
  intros [Hne Heq] Hp.
  assert (Hne' : sequences' ≠ []).
  { intros ->. apply Permutation_nil_r in Hp. done. }
  unfold equal_length in Heq. rewrite Forall_forall in Heq.
  assert (HL : alignment_length sequences' = alignment_length sequences).
  { destruct sequences' as [|first l]; [done|]. cbn [alignment_length].
    apply Heq. rewrite Hp. left. }
  split; [|exact HL]. split; [exact Hne'|].
  unfold equal_length. rewrite HL. apply Forall_forall. intros s Hs.
  apply Heq. by rewrite Hp.
Qed.

Lemma SumOfPairs_evaluate_pairs (m : ascii → ascii → Z) (sequences : list string) :
  valid_alignment sequences →
  SumOfPairs.evaluate m sequences
  = Ok (sumZ (map (λ k, sumZ (map (λ ab, m ab.1 ab.2)
                               (combinations_2 (column sequences k))))
                (range (alignment_length sequences)))).
Proof.
  intros [Hne Heq]. destruct sequences as [|first l]; [done|].
  unfold SumOfPairs.evaluate. rewrite list_first_cons, bind_Ok.
  change (len first) with (alignment_length (first :: l)).
  rewrite (for_each_sumZ _ _ (λ k,
    sumZ (map (λ ab, m ab.1 ab.2) (combinations_2 (column (first :: l) k))))).
  - by rewrite Z.add_0_l.
  - intros k acc Hk. apply elem_of_range in Hk.
    rewrite get_column_Ok, bind_Ok by assumption.
    by rewrite SumOfPairs_get_score_of_k_column_pairs, bind_Ok.
Qed.

(** X11: with a symmetric substitution matrix, [SumOfPairs.evaluate] gives
    the same score whatever the order of the rows of a valid alignment. *)
Theorem SumOfPairs_evaluate_row_order (m : ascii → ascii → Z)
    (sequences sequences' : list string) :
  (∀ a b, m a b = m b a) →
  valid_alignment sequences → sequences ≡ₚ sequences' →
  SumOfPairs.evaluate m sequences' = SumOfPairs.evaluate m sequences.
Proof.
  intros Hsym Hv Hp.
  destruct (valid_alignment_Permutation _ _ Hv Hp) as [Hv' HL].
  rewrite !SumOfPairs_evaluate_pairs, HL by assumption. f_equal. f_equal.
  apply map_ext. intros k. apply pair_sum_Permutation; [exact Hsym|].
  unfold column. apply map_Permutation. by symmetry.
Qed.

Lemma SumOfPairs_evaluate_row_order_witness :
  valid_alignment ["AC"; "AG"; "TG"] ∧ ["AC"; "AG"; "TG"] ≡ₚ ["TG"; "AC"; "AG"] ∧
  SumOfPairs.evaluate (λ a b, if decide (a = b) then 2%Z else 0%Z) ["TG"; "AC"; "AG"]
  = SumOfPairs.evaluate (λ a b, if decide (a = b) then 2%Z else 0%Z) ["AC"; "AG"; "TG"].
Proof.
  assert (Hv : valid_alignment ["AC"; "AG"; "TG"])
    by (split; [discriminate|repeat constructor]).
  assert (Hp : ["AC"; "AG"; "TG"] ≡ₚ ["TG"; "AC"; "AG"]).
  { etrans; [apply perm_skip, perm_swap|apply perm_swap]. }
  assert (Hsym : ∀ a b : ascii, (if decide (a = b) then 2%Z else 0%Z)
                                = (if decide (b = a) then 2%Z else 0%Z)).
  { intros a b. destruct (decide (a = b)) as [->|Hne].
    - by rewrite decide_True.
    - by rewrite decide_False by (intros ->; done). }
  split; [exact Hv|]. split; [exact Hp|].
  exact (SumOfPairs_evaluate_row_order _ _ _ Hsym Hv Hp).
Defined.

Lemma for_each_ext {A B : Type} (xs : list A) (body body' : A → B → result B)
    (acc : B) :
  (∀ x a, x ∈ xs → body x a = body' x a) →
  for_each xs body acc = for_each xs body' acc.
Proof.
  revert acc. induction xs as [|x xs IH]; intros acc Hb; [reflexivity|].
  cbn [for_each]. rewrite Hb by left. destruct (body' x acc) as [b|e]; [|reflexivity].
  rewrite !bind_Ok. apply IH. intros y c Hy. apply Hb. by right.
Qed.

(** X12: [PercentageOfNonGaps.evaluate] and
    [PercentageOfTotallyConservedColumns.evaluate] give the same result
    whatever the order of the rows of a valid alignment. *)
Theorem percentages_row_order (sequences sequences' : list string) :
  valid_alignment sequences → sequences ≡ₚ sequences' →
  PercentageOfNonGaps.evaluate sequences' = PercentageOfNonGaps.evaluate sequences ∧
  PercentageOfTotallyConservedColumns.evaluate sequences'
  = PercentageOfTotallyConservedColumns.evaluate sequences.
Proof.
  intros Hv Hp.
  destruct (valid_alignment_Permutation _ _ Hv Hp) as [Hv' HL].
  destruct Hv as [Hne Heq]. destruct Hv' as [Hne' Heq'].
  destruct sequences as [|first l]; [done|].
  destruct sequences' as [|first' l']; [done|].
  cbn [alignment_length] in HL. split.
  - unfold PercentageOfNonGaps.evaluate.
    rewrite !list_first_cons, !bind_Ok, HL.
    rewrite !(for_each_sumZ _ _ PercentageOfNonGaps.count_gaps) by done.
    rewrite !bind_Ok.
    rewrite (sumZ_Permutation _ _
               (map_Permutation PercentageOfNonGaps.count_gaps _ _ Hp)).
    by rewrite (Permutation_length Hp).
  - unfold PercentageOfTotallyConservedColumns.evaluate.
    rewrite !list_first_cons, !bind_Ok, HL.
    f_equal. apply for_each_ext. intros k acc Hk. apply elem_of_range in Hk.
    rewrite !get_column_Ok, !bind_Ok by (try assumption; cbn; lia).
    unfold PercentageOfTotallyConservedColumns.is_conserved.
    replace (list_to_set (column (first' :: l') k) : gset ascii)
      with (list_to_set (column (first :: l) k) : gset ascii); [reflexivity|].
    apply set_eq. intros c. rewrite !elem_of_list_to_set. unfold column.
    by rewrite (map_Permutation (symbol_at k) _ _ Hp).
Qed.

Lemma percentages_row_order_witness :
  valid_alignment ["A-"; "AG"; "TG"] ∧ ["A-"; "AG"; "TG"] ≡ₚ ["TG"; "A-"; "AG"] ∧
  PercentageOfNonGaps.evaluate ["TG"; "A-"; "AG"]
  = PercentageOfNonGaps.evaluate ["A-"; "AG"; "TG"].
Proof.
  assert (Hv : valid_alignment ["A-"; "AG"; "TG"])
    by (split; [discriminate|repeat constructor]).
  assert (Hp : ["A-"; "AG"; "TG"] ≡ₚ ["TG"; "A-"; "AG"]).
  { etrans; [apply perm_skip, perm_swap|apply perm_swap]. }
  split; [exact Hv|]. split; [exact Hp|].
  exact (proj1 (percentages_row_order _ _ Hv Hp)).
Defined.

(** ** A single row *)

Lemma column_singleton (s : string) (k : nat) : column [s] k = [symbol_at k s].
Proof. reflexivity. Qed.

Lemma map_symbol_at_range (s : string) {B : Type} (f : ascii → B) :
  map (λ k, f (symbol_at k s)) (range (len s)) = map f (chars s).
Proof.
  unfold range, len, symbol_at. symmetry. apply (map_lookup_seq "000"%char).
Qed.

(** X13: for a single sequence [SumOfPairs.evaluate] is 0 (there is no
    pair) and [Star.evaluate] is the sum of the substitution values of each
    symbol with itself. *)
Theorem single_sequence_scores (m : ascii → ascii → Z) (s : string) :
  SumOfPairs.evaluate m [s] = Ok 0%Z ∧
  Star.evaluate m [s] = Ok (sumZ (map (λ c, m c c) (chars s))).
Proof.
  assert (Hv : valid_alignment [s]) by (split; [discriminate|repeat constructor]).
  split.
  - rewrite SumOfPairs_evaluate_pairs by exact Hv. f_equal.
    rewrite (sumZ_map_const _ 0%Z); [lia|]. intros k _. reflexivity.
  - destruct (Star_evaluate_formula m [s] Hv) as (majority & Hmaj & ->). f_equal.
    rewrite <- (map_symbol_at_range s (λ c, m c c)). cbn [alignment_length].
    f_equal. apply map_ext_in. intros k Hk. apply in_seq in Hk.
    rewrite column_singleton. cbn [map]. rewrite sumZ_cons. unfold sumZ at 1. cbn [foldr].
    assert (E : majority k = symbol_at k s).
    { specialize (Hmaj k ltac:(cbn; lia)). apply is_majority_elem_of in Hmaj.
      rewrite column_singleton in Hmaj. by apply list_elem_of_singleton in Hmaj. }
    rewrite E. lia.
Qed.

(** ** The helpers of Entropy *)

Lemma NoDup_keys_tabulated {K V : Type} (g : K → V) (ks : list K) :
  map fst (map (λ c, (c, g c)) ks) = ks.
Proof. rewrite map_map. cbn. apply map_id. Qed.

(** X4: [Entropy.get_words_frequencies] never fails (the empty list gives
    the empty dictionary); its keys are the distinct words in order of first
    occurrence; looking a word of the list up gives its number of
    occurrences divided by the length of the list, and any other word is
    absent. *)
Theorem get_words_frequencies_lookup (words : list ascii) :
  ∃ d, Entropy.get_words_frequencies words = Ok d ∧
       map fst d = distinct words ∧ NoDup (map fst d) ∧
       (∀ w, w ∈ words → dict_get w 0%R d = frequency words w) ∧
       (∀ w default, w ∉ words → dict_get w default d = default).
Proof.
  exists (map (λ c, (c, frequency words c)) (distinct words)).
  split; [apply get_words_frequencies_spec|].
  rewrite NoDup_keys_tabulated. split; [reflexivity|]. split; [apply NoDup_distinct|].
  split.
  - intros w Hw. rewrite dict_get_tabulated, decide_True; [reflexivity|].
    by apply elem_of_distinct.
  - intros w default Hw. rewrite dict_get_tabulated, decide_False; [reflexivity|].
    by rewrite elem_of_distinct.
Qed.

(** X5: [Entropy.get_column_entropy] returns the sum of
    [value * ln(value)] over the dictionary when every value is positive, and
    raises ValueError (from [math.log]) as soon as one value is not. *)
Theorem get_column_entropy_domain (column : dict ascii R) :
  ((∀ kv, kv ∈ column → (0 < kv.2)%R) →
   Entropy.get_column_entropy column
   = Ok (sumR (map (λ kv, kv.2 * ln kv.2)%R column))) ∧
  ((∃ kv, kv ∈ column ∧ (kv.2 <= 0)%R) →
   Entropy.get_column_entropy column = Raise ValueError).
Proof.
  unfold Entropy.get_column_entropy. split.
  - intros Hpos. rewrite (for_each_sumR _ _ (λ kv : ascii * R, kv.2 * ln kv.2)%R).
    + by rewrite Rplus_0_l.
    + intros [key value] acc Hin. rewrite math_log_pos by (apply (Hpos _ Hin)).
      reflexivity.
  - intros (kv & Hin & Hbad). apply for_each_raise.
    + intros [key value] acc _. unfold math_log.
      destruct (Rlt_dec 0 value); [left|right; reflexivity].
      rewrite bind_Ok. eauto.
    + exists kv. split; [exact Hin|]. intros acc. destruct kv as [key value].
      unfold math_log. cbn [snd] in Hbad.
      destruct (Rlt_dec 0 value); [lra|reflexivity].
Qed.

Lemma get_column_entropy_domain_witness :
  (∃ kv, kv ∈ [("A"%char, 1%R); ("C"%char, 0%R)] ∧ (kv.2 <= 0)%R) ∧
  Entropy.get_column_entropy [("A"%char, 1%R); ("C"%char, 0%R)] = Raise ValueError.
Proof.
  assert (H : ∃ kv : ascii * R,
            kv ∈ [("A"%char, 1%R); ("C"%char, 0%R)] ∧ (kv.2 <= 0)%R).
  { exists ("C"%char, 0%R). split; [right; left|cbn; lra]. }
  split; [exact H|].
  exact (proj2 (get_column_entropy_domain _) H).
Defined.

(** X1: [Score.compute] adds nothing but the check: when every sequence has
    the length of the first one (the empty list included) it returns what
    [evaluate] returns, exceptions included; otherwise it raises
    AlignmentLengthMismatch. *)
Theorem Score_compute_characterisation {A : Type}
    (evaluate : list string → result A) (sequences : list string) :
  (equal_length sequences → Score.compute evaluate sequences = evaluate sequences) ∧
  (¬ equal_length sequences →
   Score.compute evaluate sequences = Raise AlignmentLengthMismatch).
Proof. split; [apply compute_valid|apply compute_mismatch]. Qed.

Lemma Score_compute_characterisation_witness :
  equal_length ["AC"; "AG"] ∧
  Score.compute PercentageOfNonGaps.evaluate ["AC"; "AG"]
  = PercentageOfNonGaps.evaluate ["AC"; "AG"].
Proof.
  assert (Heq : equal_length ["AC"; "AG"]) by (repeat constructor).
  split; [exact Heq|].
  exact (proj1 (Score_compute_characterisation PercentageOfNonGaps.evaluate _) Heq).
Defined.

(** ** The column scores on degenerate columns *)

(** X19: [Star.get_score_of_k_column] raises IndexError exactly on the empty
    column ([most_common(1)] is then empty); [SumOfPairs.get_score_of_k_column]
    never fails and is 0 on a column of at most one symbol. *)
Theorem column_scores_on_small_columns (m : ascii → ascii → Z) (col : list ascii) :
  (Star.get_score_of_k_column m col = Raise IndexError ↔ col = []) ∧
  (∃ z, SumOfPairs.get_score_of_k_column m col = Ok z) ∧
  ((length col ≤ 1)%nat → SumOfPairs.get_score_of_k_column m col = Ok 0%Z).
Proof.
  split_and!.
  - split; [|intros ->; reflexivity].
    intros E. destruct col as [|c col]; [reflexivity|exfalso].
    destruct (Star_get_score_of_k_column_spec m (c :: col) ltac:(discriminate))
      as (x & _ & Hx). congruence.
  - rewrite SumOfPairs_get_score_of_k_column_pairs. eauto.
  - intros Hlen. rewrite SumOfPairs_get_score_of_k_column_pairs.
    destruct col as [|a [|b col]]; [reflexivity|reflexivity|cbn in Hlen; lia].
Qed.

Lemma column_scores_on_small_columns_witness :
  (length ["A"%char] ≤ 1)%nat ∧
  SumOfPairs.get_score_of_k_column (λ _ _, 3%Z) ["A"%char] = Ok 0%Z.
Proof.
  assert (H : (length ["A"%char] ≤ 1)%nat) by (cbn; lia).
  split; [exact H|].
  exact (proj2 (proj2 (column_scores_on_small_columns (λ _ _, 3%Z) ["A"%char])) H).
Defined.

(** ** Strike: what a call leaves behind *)

Lemma pdb_suffix_not_con (id : string) : id +:+ ".pdb" ≠ "in.con".
Proof.
  destruct id as [|c1 [|c2 [|c3 [|c4 [|c5 [|c6 [|c7 id]]]]]]]; cbn; try discriminate.
  all: intros E; repeat (injection E as _ E); try discriminate.
  all: destruct id; discriminate.
Qed.

Lemma pdb_suffix_not_aln (id : string) : id +:+ ".pdb" ≠ "aln.fa".
Proof.
  destruct id as [|c1 [|c2 [|c3 [|c4 [|c5 [|c6 [|c7 id]]]]]]]; cbn; try discriminate.
  all: intros E; repeat (injection E as _ E); try discriminate.
  all: destruct id; discriminate.
Qed.

Section Strike_more.
Variable cwd : string.
Variable urlopen : string → response.
Variable decode : string → result string.
Variable tool : string → gmap string string → string → string → result R.

Local Abbreviation resolve := (Strike.resolve cwd).
Local Abbreviation get_pdb := (Strike.get_pdb cwd urlopen decode).
Local Abbreviation evaluate := (Strike.evaluate cwd urlopen decode tool).

Lemma resolve_pdb_path (id : string) :
  resolve (pdb_path id) = dir_prefix cwd +:+ "strike/" +:+ id +:+ ".pdb".
Proof. by apply os_path_join_relative. Qed.

(** The outcomes of [get_pdb], by what it leaves in the files. *)
Lemma get_pdb_files (pdb_id : string) (w : World) :
  files (get_pdb pdb_id w).2 = files w ∨
  (files w !! resolve (pdb_path pdb_id) = None ∧
   ∃ text, files (get_pdb pdb_id w).2
           = <[resolve (pdb_path pdb_id) := text]> (files w)).
Proof.
  destruct (files w !! resolve (pdb_path pdb_id)) as [v|] eqn:E.
  - left. unfold pdb_path in E. rewrite get_pdb_present by (rewrite E; eauto).
    reflexivity.
  - pose proof (get_pdb_absent cwd urlopen decode pdb_id w E) as Hg.
    fold (pdb_path pdb_id) in Hg. fold (pdb_url pdb_id) in Hg.
    rewrite Hg. destruct (urlopen _); [|by left..].
    cbv zeta. destruct (decide _); [|by left].
    destruct (decode bytes); right; (split; [reflexivity|]); eauto.
Qed.

Lemma get_pdb_dirs (pdb_id : string) (w : World) :
  dirs (get_pdb pdb_id w).2 = dirs w.
Proof.
  destruct (files w !! resolve (pdb_path pdb_id)) as [v|] eqn:E.
  - unfold pdb_path in E. rewrite get_pdb_present by (rewrite E; eauto). reflexivity.
  - pose proof (get_pdb_absent cwd urlopen decode pdb_id w E) as Hg.
    fold (pdb_path pdb_id) in Hg. fold (pdb_url pdb_id) in Hg.
    rewrite Hg. destruct (urlopen _); [|reflexivity..].
    cbv zeta. destruct (decide _); [|reflexivity].
    destruct (decode bytes); reflexivity.
Qed.

Lemma get_pdb_other_file (pdb_id p : string) (w : World) :
  p ≠ resolve (pdb_path pdb_id) →
  files (get_pdb pdb_id w).2 !! p = files w !! p.
Proof.
  intros Hp. destruct (get_pdb_files pdb_id w) as [->|(_ & text & ->)]; [reflexivity|].
  by rewrite lookup_insert_ne.
Qed.

Lemma get_pdb_extends (pdb_id : string) (w : World) :
  files w ⊆ files (get_pdb pdb_id w).2.
Proof.
  destruct (get_pdb_files pdb_id w) as [->|(Habs & text & ->)]; [reflexivity|].
  by apply insert_subseteq.
Qed.

(** X14: after a [get_pdb] that returned the path, a second [get_pdb] of the
    same id returns the path again and does nothing: no fetch, no write. *)
Theorem Strike_get_pdb_second_call_is_noop (pdb_id : string) (w : World) :
  (get_pdb pdb_id w).1 = Ok (pdb_path pdb_id) →
  get_pdb pdb_id (get_pdb pdb_id w).2
  = (Ok (pdb_path pdb_id), (get_pdb pdb_id w).2).
Proof.
  intros Hok. apply get_pdb_present. fold (pdb_path pdb_id).
  destruct (files w !! resolve (pdb_path pdb_id)) as [v|] eqn:E.
  - unfold pdb_path in E |- *. rewrite get_pdb_present by (rewrite E; eauto).
    cbn [snd]. rewrite E. eauto.
  - pose proof (get_pdb_absent cwd urlopen decode pdb_id w E) as Hg.
    fold (pdb_path pdb_id) in Hg. fold (pdb_url pdb_id) in Hg.
    rewrite Hg in Hok |- *. destruct (urlopen _); [|discriminate..].
    cbv zeta in Hok |- *. destruct (decide _); [|discriminate].
    destruct (decode bytes); [|discriminate].
    cbn [snd files]. rewrite lookup_insert_eq. eauto.
Qed.


Lemma preserves_bind {A B : Type} (P : World → Prop) (m : IO A) (f : A → IO B) :
  preserves P m → (∀ a, preserves P (f a)) → preserves P (m ≫= f).
Proof.
  intros Hm Hf w HP. rewrite IO_bind_run. specialize (Hm w HP).
  destruct (m w) as [[a|e] w']; cbn [snd] in *; [|exact Hm].
  by apply Hf.
Qed.

Lemma preserves_ret {A : Type} (P : World → Prop) (a : A) :
  preserves P (mret a : IO A).
Proof. intros w HP. exact HP. Qed.

Lemma preserves_lift {A : Type} (P : World → Prop) (r : result A) :
  preserves P (lift r).
Proof. intros w HP. exact HP. Qed.

Lemma preserves_io_for_each {A : Type} (P : World → Prop) (xs : list A)
    (body : A → IO unit) :
  (∀ x, preserves P (body x)) → preserves P (io_for_each xs body).
Proof.
  intros Hb. induction xs as [|x xs IH]; [apply preserves_ret|].
  cbn [io_for_each]. apply preserves_bind; [apply Hb|]. intros _. exact IH.
Qed.

Lemma tool_runs_log (w : World) (ev : event) :
  is_run ev = false →
  tool_runs (mkWorld (files w) (dirs w) (trace w ++ [ev])) = tool_runs w.
Proof.
  intros Hev. unfold tool_runs. cbn [trace].
  rewrite List.filter_app, length_app. cbn. rewrite Hev. cbn. lia.
Qed.

Section Invariant.
Variable w0 : World.
Variable D : gset string.
Variable n : nat.
Local Abbreviation Inv := (staging_invariant w0 D n).

Lemma Inv_open_w (p : string) :
  files w0 !! resolve p = None → preserves Inv (Strike.open_w cwd p).
Proof.
  intros Hp w (Hf & Hd & Hn). unfold Strike.open_w.
  destruct (decide _); cbn [snd]; [|done].
  split_and!; cbn [files dirs]; [by apply insert_subseteq_r|exact Hd|].
  rewrite <- Hn. unfold tool_runs. cbn [trace].
  rewrite List.filter_app, length_app. cbn. lia.
Qed.

Lemma Inv_write (p data : string) :
  files w0 !! resolve p = None → preserves Inv (Strike.write cwd p data).
Proof.
  intros Hp w (Hf & Hd & Hn). unfold Strike.write. cbn [snd].
  split_and!; cbn [files dirs]; [by apply insert_subseteq_r|exact Hd|].
  rewrite <- Hn. unfold tool_runs. cbn [trace].
  rewrite List.filter_app, length_app. cbn. lia.
Qed.

Lemma get_pdb_tool_runs (pdb_id : string) (w : World) :
  tool_runs (get_pdb pdb_id w).2 = tool_runs w.
Proof.
  destruct (files w !! resolve (pdb_path pdb_id)) as [v|] eqn:E.
  - unfold pdb_path in E. rewrite get_pdb_present by (rewrite E; eauto). reflexivity.
  - pose proof (get_pdb_absent cwd urlopen decode pdb_id w E) as Hg.
    fold (pdb_path pdb_id) in Hg. fold (pdb_url pdb_id) in Hg.
    rewrite Hg. unfold tool_runs.
    destruct (urlopen _); [|cbn [snd trace]; rewrite List.filter_app, length_app; cbn; lia..].
    cbv zeta. destruct (decide _);
      [|cbn [snd trace]; rewrite List.filter_app, length_app; cbn; lia].
    destruct (decode bytes); cbn [snd trace];
      rewrite List.filter_app, length_app; cbn; lia.
Qed.

Lemma Inv_get_pdb (pdb_id : string) : preserves Inv (get_pdb pdb_id).
Proof.
  intros w (Hf & Hd & Hn). split_and!.
  - etrans; [exact Hf|apply get_pdb_extends].
  - by rewrite get_pdb_dirs.
  - by rewrite get_pdb_tool_runs.
Qed.

Lemma Inv_stage_one (self : Strike.t) (seqs ids chains : list string) (i : nat) :
  files w0 !! resolve (Strike.out_connection_path self) = None →
  files w0 !! resolve (Strike.out_alignment_path self) = None →
  preserves Inv (Strike.stage_one cwd urlopen decode self seqs ids chains i).
Proof.
  intros Hc Ha. unfold Strike.stage_one.
  apply preserves_bind; [apply preserves_lift|]. intros id.
  apply preserves_bind; [apply Inv_get_pdb|]. intros _.
  apply preserves_bind; [apply preserves_lift|]. intros chain.
  apply preserves_bind; [by apply Inv_write|]. intros _.
  apply preserves_bind; [apply preserves_lift|]. intros sequence.
  by apply Inv_write.
Qed.
End Invariant.

(** What [evaluate] does to a path [p] that is none of the paths it
    writes: nothing. *)
Section Untouched.
Variable p : string.
Variable v : option string.
Local Abbreviation Same := (λ w : World, files w !! p = v).

Lemma Same_open_w (q : string) :
  p ≠ resolve q → preserves Same (Strike.open_w cwd q).
Proof.
  intros Hq w Hw. unfold Strike.open_w.
  destruct (decide _); cbn [snd files]; [|exact Hw].
  by rewrite lookup_insert_ne by (by apply not_eq_sym).
Qed.

Lemma Same_write (q data : string) :
  p ≠ resolve q → preserves Same (Strike.write cwd q data).
Proof.
  intros Hq w Hw. unfold Strike.write. cbn [snd files].
  by rewrite lookup_insert_ne by (by apply not_eq_sym).
Qed.

Lemma Same_get_pdb (pdb_id : string) :
  p ≠ resolve (pdb_path pdb_id) → preserves Same (get_pdb pdb_id).
Proof. intros Hq w Hw. by rewrite get_pdb_other_file. Qed.

Lemma Same_stage_one (self : Strike.t) (seqs ids chains : list string) (i : nat) :
  p ≠ resolve (Strike.out_connection_path self) →
  p ≠ resolve (Strike.out_alignment_path self) →
  (∀ pdb_id, p ≠ resolve (pdb_path pdb_id)) →
  preserves Same (Strike.stage_one cwd urlopen decode self seqs ids chains i).
Proof.
  intros Hc Ha Hpdb. unfold Strike.stage_one.
  apply preserves_bind; [apply preserves_lift|]. intros id.
  apply preserves_bind; [by apply Same_get_pdb|]. intros _.
  apply preserves_bind; [apply preserves_lift|]. intros chain.
  apply preserves_bind; [by apply Same_write|]. intros _.
  apply preserves_bind; [apply preserves_lift|]. intros sequence.
  by apply Same_write.
Qed.

Lemma Same_evaluate (self : Strike.t) (seqs ids chains : list string) :
  p ≠ resolve (Strike.out_connection_path self) →
  p ≠ resolve (Strike.out_alignment_path self) →
  (∀ pdb_id, p ≠ resolve (pdb_path pdb_id)) →
  preserves Same (evaluate self seqs ids chains).
Proof.
  intros Hc Ha Hpdb. unfold Strike.evaluate.
  apply preserves_bind.
  { intros w Hw. unfold Strike.os_makedirs. by destruct (decide _). }
  intros _. apply preserves_bind; [by intros w Hw|]. intros c_present.
  apply preserves_bind.
  { destruct c_present; [apply preserves_ret|].
    apply preserves_bind; [by intros w Hw|]. intros a_present. apply preserves_ret. }
  intros neither. apply preserves_bind; [|by intros _ w Hw].
  destruct neither; [|apply preserves_ret].
  apply preserves_bind; [by apply Same_open_w|]. intros _.
  apply preserves_bind; [by apply Same_open_w|]. intros _.
  apply preserves_io_for_each. intros i. by apply Same_stage_one.
Qed.
End Untouched.

(** [evaluate] when neither staging file exists: the staging, then the
    tool. *)
Lemma evaluate_neither (self : Strike.t) (seqs ids chains : list string) (w : World) :
  files w !! Strike.os_path_abspath cwd "strike" = None →
  files w !! resolve (Strike.out_connection_path self) = None →
  files w !! resolve (Strike.out_alignment_path self) = None →
  evaluate self seqs ids chains w
  = ((Strike.open_w cwd (Strike.out_connection_path self) ≫= λ _ : (),
      Strike.open_w cwd (Strike.out_alignment_path self) ≫= λ _ : (),
      io_for_each (range (length seqs))
        (Strike.stage_one cwd urlopen decode self seqs ids chains)) ≫= λ _ : (),
     Strike.run_tool tool (Strike.os_path_abspath cwd (Strike.exe_path self))
       (Strike.out_connection_path self) (Strike.out_alignment_path self))
      (mkWorld (files w) ({[ Strike.os_path_abspath cwd "strike" ]} ∪ dirs w)
         (trace w ++ [EvMakedirs (Strike.os_path_abspath cwd "strike")])).
Proof.
  intros Hdir Hc Ha. unfold Strike.evaluate.
  rewrite IO_bind_run, os_makedirs_run by exact Hdir.
  rewrite IO_bind_run. unfold Strike.is_file at 1. cbn [files].
  rewrite bool_decide_eq_false_2 by (rewrite Hc; apply is_Some_None).
  rewrite !IO_bind_run. unfold Strike.is_file at 1. cbn [files].
  rewrite bool_decide_eq_false_2 by (rewrite Ha; apply is_Some_None).
  cbn [mret IO_ret negb]. rewrite !IO_bind_run. reflexivity.
Qed.

(** X16: a [Strike] call never removes a file nor changes the content of
    a file that existed before it; it removes no directory and the only
    directory it can add is the staging directory, which it does add unless
    a regular file is in its place (the call then raises [FileExistsError]
    at once); it runs the tool at most once. *)
Theorem Strike_compute_leaves_existing_files (self : Strike.t)
    (seqs ids chains : list string) (w : World) :
  files w ⊆ files (evaluate self seqs ids chains w).2 ∧
  dirs w ⊆ dirs (evaluate self seqs ids chains w).2 ∧
  dirs (evaluate self seqs ids chains w).2
  ⊆ {[ Strike.os_path_abspath cwd "strike" ]} ∪ dirs w ∧
  (tool_runs (evaluate self seqs ids chains w).2 ≤ tool_runs w + 1)%nat ∧
  (files w !! Strike.os_path_abspath cwd "strike" = None →
   dirs (evaluate self seqs ids chains w).2
   = {[ Strike.os_path_abspath cwd "strike" ]} ∪ dirs w) ∧
  (is_Some (files w !! Strike.os_path_abspath cwd "strike") →
   evaluate self seqs ids chains w = (Raise FileExistsError, w)).
Proof.
  destruct (files w !! Strike.os_path_abspath cwd "strike") as [d|] eqn:Hdir.
  { rewrite evaluate_blocked by (rewrite Hdir; eauto). cbn [snd].
    split_and!; [reflexivity|reflexivity|set_solver|lia|done|done]. }
  cut (files w ⊆ files (evaluate self seqs ids chains w).2 ∧
       dirs (evaluate self seqs ids chains w).2
       = {[ Strike.os_path_abspath cwd "strike" ]} ∪ dirs w ∧
       (tool_runs (evaluate self seqs ids chains w).2 ≤ tool_runs w + 1)%nat).
  { intros (H1 & H2 & H3). rewrite H2.
    split_and!; [exact H1|apply union_subseteq_r|reflexivity|exact H3|done|].
    intros [? ?]; discriminate. }
  destruct (files w !! resolve (Strike.out_connection_path self)) as [v|] eqn:Hc.
  { rewrite evaluate_skips by (done || left; rewrite Hc; eauto).
    unfold skip_outcome, skip_events, tool_runs. cbn [snd files dirs trace].
    split_and!; [reflexivity..|].
    rewrite List.filter_app, length_app. cbn. lia. }
  destruct (files w !! resolve (Strike.out_alignment_path self)) as [v|] eqn:Ha.
  { rewrite evaluate_skips by (done || right; rewrite Ha; eauto).
    unfold skip_outcome, skip_events, tool_runs. cbn [snd files dirs trace].
    split_and!; [reflexivity..|].
    rewrite List.filter_app, length_app. cbn. lia. }
  rewrite evaluate_neither by assumption.
  set (wa := mkWorld (files w) _ _).
  set (staging := Strike.open_w cwd _ ≫= _).
  assert (HI : staging_invariant w ({[Strike.os_path_abspath cwd "strike"]} ∪ dirs w)
                 (tool_runs w) (staging wa).2).
  { apply (preserves_bind (staging_invariant w _ _)).
    - by apply Inv_open_w.
    - intros _. apply preserves_bind; [by apply Inv_open_w|]. intros _.
      apply preserves_io_for_each. intros i. by apply Inv_stage_one.
    - split_and!; [reflexivity..|]. subst wa. by apply tool_runs_log. }
  rewrite IO_bind_run. destruct (staging wa) as [[[]|e] w'].
  - destruct HI as (Hf & Hd & Hn). cbn [snd] in *. unfold Strike.run_tool.
    cbn [snd files dirs]. split_and!; [exact Hf|exact Hd|].
    unfold tool_runs in *. cbn [trace]. rewrite List.filter_app, length_app. cbn. lia.
  - destruct HI as (Hf & Hd & Hn). cbn [snd] in *. split_and!; [exact Hf|exact Hd|lia].
Qed.

Lemma text_of_snoc (lines : list string) (line : string) :
  text_of (lines ++ [line]) = text_of lines +:+ line.
Proof. unfold text_of. by rewrite fold_left_app. Qed.

Section Staging.
Variable exe : string.
Variables seqs ids chains : list string.
(** The working directory is an absolute path in normal form, as
    [os.getcwd()] returns it. *)
Hypothesis cwd_absolute : is_absolute cwd = true.
Hypothesis cwd_normal : os_path_normpath cwd = cwd.

Local Abbreviation self := (Strike.init cwd exe).
Local Abbreviation con := (Strike.out_connection_path (Strike.init cwd exe)).
Local Abbreviation aln := (Strike.out_alignment_path (Strike.init cwd exe)).
Local Abbreviation strike_dir := (Strike.os_path_abspath cwd "strike").
Local Abbreviation con_text :=
  (λ k, text_of (map (connection_line cwd ids chains) (seq 0 k))).
Local Abbreviation aln_text :=
  (λ k, text_of (map (fasta_record seqs ids) (seq 0 k))).

Lemma strike_dir_eq : strike_dir = dir_prefix cwd +:+ "strike".
Proof.
  refine (abspath_plain cwd ["strike"] cwd_absolute cwd_normal _ _); [done|].
  repeat (constructor; [by split_and!|]). constructor.
Qed.

Lemma con_eq : con = dir_prefix cwd +:+ "strike/in.con".
Proof.
  refine (abspath_plain cwd ["strike"; "in.con"] cwd_absolute cwd_normal _ _); [done|].
  repeat (constructor; [by split_and!|]). constructor.
Qed.

Lemma aln_eq : aln = dir_prefix cwd +:+ "strike/aln.fa".
Proof.
  refine (abspath_plain cwd ["strike"; "aln.fa"] cwd_absolute cwd_normal _ _); [done|].
  repeat (constructor; [by split_and!|]). constructor.
Qed.

Lemma resolve_con : resolve con = con.
Proof.
  rewrite con_eq. apply os_path_join_absolute. by apply dir_prefix_absolute.
Qed.

Lemma resolve_aln : resolve aln = aln.
Proof.
  rewrite aln_eq. apply os_path_join_absolute. by apply dir_prefix_absolute.
Qed.

Lemma dirname_con : dirname con = strike_dir.
Proof.
  rewrite con_eq, strike_dir_eq. unfold dirname.
  by rewrite (dirname_aux_app (dir_prefix cwd) "strike/in.con" "strike").
Qed.

Lemma dirname_aln : dirname aln = strike_dir.
Proof.
  rewrite aln_eq, strike_dir_eq. unfold dirname.
  by rewrite (dirname_aux_app (dir_prefix cwd) "strike/aln.fa" "strike").
Qed.

Lemma pdb_path_not_con (id : string) : resolve (pdb_path id) ≠ con.
Proof.
  rewrite resolve_pdb_path, con_eq. intros E.
  apply string_app_inv_head in E.
  apply (string_app_inv_head "strike/" _ "in.con") in E.
  by apply pdb_suffix_not_con in E.
Qed.

Lemma pdb_path_not_aln (id : string) : resolve (pdb_path id) ≠ aln.
Proof.
  rewrite resolve_pdb_path, aln_eq. intros E.
  apply string_app_inv_head in E.
  apply (string_app_inv_head "strike/" _ "aln.fa") in E.
  by apply pdb_suffix_not_aln in E.
Qed.

Lemma con_not_aln : con ≠ aln.
Proof.
  rewrite con_eq, aln_eq. intros E. apply string_app_inv_head in E. discriminate.
Qed.

Lemma strike_dir_not_con : strike_dir ≠ resolve con.
Proof.
  rewrite resolve_con, strike_dir_eq, con_eq. intros E.
  apply string_app_inv_head in E. discriminate.
Qed.

Lemma strike_dir_not_aln : strike_dir ≠ resolve aln.
Proof.
  rewrite resolve_aln, strike_dir_eq, aln_eq. intros E.
  apply string_app_inv_head in E. discriminate.
Qed.

Lemma strike_dir_not_pdb_path (id : string) : strike_dir ≠ resolve (pdb_path id).
Proof.
  rewrite resolve_pdb_path, strike_dir_eq. intros E.
  apply string_app_inv_head in E.
  apply (string_app_inv_head "strike" EmptyString ("/" +:+ id +:+ ".pdb")) in E.
  discriminate.
Qed.

(** The staging leaves no regular file at the staging directory's path. *)
Lemma staging_keeps_directory_path (w : World) :
  files w !! strike_dir = None →
  files (evaluate self seqs ids chains w).2 !! strike_dir = None.
Proof.
  apply (Same_evaluate strike_dir None self seqs ids chains).
  - apply strike_dir_not_con.
  - apply strike_dir_not_aln.
  - apply strike_dir_not_pdb_path.
Qed.

(** One turn of the staging loop, step by step. *)
Lemma stage_one_run (i : nat) (w : World) :
  Strike.stage_one cwd urlopen decode self seqs ids chains i w
  = match ids !! i with
    | None => (Raise IndexError, w)
    | Some id =>
        match get_pdb id w with
        | (Raise e, w1) => (Raise e, w1)
        | (Ok _, w1) =>
            match chains !! i with
            | None => (Raise IndexError, w1)
            | Some chain =>
                let w2 := (Strike.write cwd con
                             (id +:+ " " +:+ Strike.os_path_abspath cwd "strike"
                                 +:+ "/" +:+ id +:+ ".pdb " +:+ chain
                                 +:+ String "010" EmptyString) w1).2 in
                match seqs !! i with
                | None => (Raise IndexError, w2)
                | Some sequence =>
                    Strike.write cwd aln
                      (">" +:+ id +:+ String "010" EmptyString +:+ sequence
                           +:+ String "010" EmptyString) w2
                end
            end
        end
    end.
Proof.
  unfold Strike.stage_one. rewrite IO_bind_run. unfold lift at 1, list_index at 1.
  destruct (ids !! i) as [id|]; [|reflexivity].
  rewrite IO_bind_run. destruct (get_pdb id w) as [[path|e] w1]; [|reflexivity].
  rewrite IO_bind_run. unfold lift at 1, list_index at 1.
  destruct (chains !! i) as [chain|]; [|reflexivity].
  rewrite IO_bind_run. unfold Strike.write at 1. cbv zeta.
  rewrite IO_bind_run. unfold lift at 1, list_index at 1.
  destruct (seqs !! i) as [sequence|]; reflexivity.
Qed.

(** One turn of the staging loop: either both files get their record, or
    an exception leaves both as they were. *)
Lemma stage_one_outcome (i : nat) (a b : string) (w : World) :
  (i < length seqs)%nat →
  files w !! con = Some a → files w !! aln = Some b →
  let out := Strike.stage_one cwd urlopen decode self seqs ids chains i w in
  (out.1 = Ok () ∧ (i < length ids)%nat ∧ (i < length chains)%nat ∧
   files out.2 !! con = Some (a +:+ connection_line cwd ids chains i) ∧
   files out.2 !! aln = Some (b +:+ fasta_record seqs ids i)) ∨
  ((∃ e, out.1 = Raise e) ∧
   files out.2 !! con = Some a ∧ files out.2 !! aln = Some b).
Proof.
  intros Hi Ha Hb. cbv zeta. rewrite stage_one_run.
  destruct (ids !! i) as [id|] eqn:Eid; [|right; cbn; eauto].
  pose proof (get_pdb_other_file id con w (not_eq_sym (pdb_path_not_con id))) as Gc.
  pose proof (get_pdb_other_file id aln w (not_eq_sym (pdb_path_not_aln id))) as Ga.
  rewrite Ha in Gc. rewrite Hb in Ga.
  destruct (get_pdb id w) as [[path|e] w1]; cbn [snd] in Gc, Ga;
    [|right; cbn; eauto].
  destruct (chains !! i) as [chain|] eqn:Ech; [|right; cbn; eauto].
  destruct (lookup_lt_is_Some_2 seqs i Hi) as [sequence Eseq]. rewrite Eseq.
  cbv zeta. unfold Strike.write. rewrite resolve_con, resolve_aln.
  cbn [fst snd files].
  left. split_and!; [reflexivity|by eapply lookup_lt_Some|by eapply lookup_lt_Some| |].
  - rewrite lookup_insert_ne by apply not_eq_sym, con_not_aln.
    rewrite lookup_insert_eq, Gc. unfold connection_line. by rewrite Eid, Ech.
  - rewrite lookup_insert_eq, lookup_insert_ne by apply con_not_aln.
    rewrite Ga. unfold fasta_record. by rewrite Eid, Eseq.
Qed.

Lemma staging_loop (b a : nat) (w : World) :
  (a + b ≤ length seqs)%nat → (a ≤ length ids)%nat → (a ≤ length chains)%nat →
  files w !! con = Some (con_text a) → files w !! aln = Some (aln_text a) →
  let out := io_for_each (seq a b)
               (Strike.stage_one cwd urlopen decode self seqs ids chains) w in
  ∃ k, (a ≤ k ≤ a + b)%nat ∧ (k ≤ length ids)%nat ∧ (k ≤ length chains)%nat ∧
       files out.2 !! con = Some (con_text k) ∧
       files out.2 !! aln = Some (aln_text k) ∧
       ((out.1 = Ok () ∧ k = (a + b)%nat) ∨ ((∃ e, out.1 = Raise e) ∧ (k < a + b)%nat)).
Proof.
  revert a w. induction b as [|b IH]; intros a w Hab Hai Hac Hc Ha; cbv zeta.
  - exists a. cbn. split_and!; try done; [lia|]. left. split; [reflexivity|lia].
  - cbn [seq io_for_each]. rewrite IO_bind_run.
    destruct (stage_one_outcome a _ _ w ltac:(lia) Hc Ha)
      as [(Hok & Hi & Hch & Hc' & Ha')|((e & He) & Hc' & Ha')].
    + destruct (Strike.stage_one _ _ _ _ _ _ _ _ _) as [[[]|e] w1];
        cbn [fst snd] in *; [|discriminate].
      assert (Ec : ∀ f : nat → string,
                text_of (map f (seq 0 (S a))) = text_of (map f (seq 0 a)) +:+ f a).
      { intros f. rewrite seq_S, map_app. cbn [map]. apply text_of_snoc. }
      rewrite <- (Ec (connection_line cwd ids chains)) in Hc'.
      rewrite <- (Ec (fasta_record seqs ids)) in Ha'.
      destruct (IH (S a) w1 ltac:(lia) ltac:(lia) ltac:(lia) Hc' Ha')
        as (k & Hk & Hki & Hkc & Hfc & Hfa & Hres).
      exists k. split_and!; [lia|lia|done..|].
      destruct Hres as [[? ?]|[? ?]]; [left|right]; (split; [done|lia]).
    + destruct (Strike.stage_one _ _ _ _ _ _ _ _ _) as [[[]|e'] w1];
        cbn [fst snd] in *; [discriminate|].
      exists a. split_and!; [lia|lia|done..|]. right. split; [eauto|lia].
Qed.

(** What a call from a state with neither staging file leaves: the first
    [k] records in both files, the tool run exactly when [k] is all of
    them. *)
Lemma staged_outcome (w : World) :
  files w !! strike_dir = None →
  files w !! con = None → files w !! aln = None →
  let out := Strike.compute cwd urlopen decode tool self seqs ids chains w in
  ∃ k, (k ≤ length seqs)%nat ∧ (k ≤ length ids)%nat ∧ (k ≤ length chains)%nat ∧
       files out.2 !! con = Some (con_text k) ∧
       files out.2 !! aln = Some (aln_text k) ∧
       ((k = length seqs ∧
         out.1 = tool (Strike.os_path_abspath cwd (Strike.exe_path self))
                   (files out.2) con aln ∧
         tool_runs out.2 = S (tool_runs w)) ∨
        ((k < length seqs)%nat ∧ (∃ e, out.1 = Raise e) ∧
         tool_runs out.2 = tool_runs w)).
Proof.
  intros Hdir Hc Ha. cbv zeta.
  remember (Strike.compute cwd urlopen decode tool self seqs ids chains w) as out
    eqn:Eout.
  unfold Strike.compute in Eout.
  rewrite evaluate_neither in Eout
    by (rewrite ?resolve_con, ?resolve_aln; assumption).
  set (wa := mkWorld (files w) _ _) in Eout.
  rewrite !IO_bind_run in Eout. unfold Strike.open_w at 1 in Eout.
  rewrite resolve_con, dirname_con, decide_True in Eout by (subst wa; cbn; set_solver).
  rewrite IO_bind_run in Eout. unfold Strike.open_w at 1 in Eout.
  rewrite resolve_aln, dirname_aln, decide_True in Eout by (subst wa; cbn; set_solver).
  match type of Eout with context [io_for_each _ _ ?w0] => set (wc := w0) in Eout end.
  assert (Hwc_runs : tool_runs wc = tool_runs w).
  { subst wc wa. unfold tool_runs. cbn [trace].
    rewrite !List.filter_app, !length_app. cbn. lia. }
  assert (Hcc : files wc !! con = Some (con_text 0%nat)).
  { subst wc. cbn [files]. rewrite lookup_insert_ne by apply not_eq_sym, con_not_aln.
    by rewrite lookup_insert_eq. }
  assert (Hca : files wc !! aln = Some (aln_text 0%nat)).
  { subst wc. cbn [files]. by rewrite lookup_insert_eq. }
  destruct (staging_loop (length seqs) 0 wc ltac:(lia) ltac:(lia) ltac:(lia) Hcc Hca)
    as (k & Hk & Hki & Hkc & Hfc & Hfa & Hres).
  assert (Hruns : tool_runs (io_for_each (range (length seqs))
                    (Strike.stage_one cwd urlopen decode self seqs ids chains) wc).2
                  = tool_runs w).
  { assert (HI : staging_invariant (mkWorld ∅ ∅ []) (dirs wc) (tool_runs w) wc).
    { split_and!; [apply map_empty_subseteq|reflexivity|exact Hwc_runs]. }
    apply (preserves_io_for_each _ (range (length seqs))
             (Strike.stage_one cwd urlopen decode self seqs ids chains)) in HI.
    - apply HI.
    - intros i. apply Inv_stage_one; apply lookup_empty. }
  unfold range in *.
  destruct (io_for_each _ _ wc) as [[[]|e] w1]; cbn [fst snd] in *; subst out.
  - exists k. unfold Strike.run_tool. cbn [fst snd files].
    split_and!; [lia|done..|].
    destruct Hres as [[_ ->]|[[e He] _]]; [|discriminate].
    left. split_and!; [lia|reflexivity|].
    unfold tool_runs in *. cbn [trace]. rewrite List.filter_app, length_app. cbn. lia.
  - exists k. cbn [fst snd]. split_and!; [lia|done..|].
    destruct Hres as [[? _]|[_ ?]]; [discriminate|].
    right. split_and!; [lia|eauto|exact Hruns].
Qed.

(** After a call from a state with neither staging file, both files exist
    and the staging directory's path is still no regular file. *)
Lemma staged_then_present (w : World) :
  files w !! strike_dir = None →
  files w !! con = None → files w !! aln = None →
  files (Strike.compute cwd urlopen decode tool self seqs ids chains w).2
    !! strike_dir = None ∧
  is_Some (files (Strike.compute cwd urlopen decode tool self seqs ids chains w).2
             !! resolve con) ∧
  is_Some (files (Strike.compute cwd urlopen decode tool self seqs ids chains w).2
             !! resolve aln).
Proof.
  intros Hdir Hc Ha.
  destruct (staged_outcome w Hdir Hc Ha) as (k & _ & _ & _ & Hfc & Hfa & _).
  rewrite resolve_con, resolve_aln, Hfc, Hfa.
  split_and!; [by apply staging_keeps_directory_path|eauto|eauto].
Qed.
End Staging.


End Strike_more.

Lemma Strike_get_pdb_second_call_is_noop_witness :
  (Strike.get_pdb example_cwd example_urlopen example_decode "1abc" fresh_world).1
  = Ok (pdb_path "1abc") ∧
  Strike.get_pdb example_cwd example_urlopen example_decode "1abc"
    (Strike.get_pdb example_cwd example_urlopen example_decode "1abc" fresh_world).2
  = (Ok (pdb_path "1abc"),
     (Strike.get_pdb example_cwd example_urlopen example_decode "1abc" fresh_world).2).
Proof.
  assert (H : (Strike.get_pdb example_cwd example_urlopen example_decode "1abc"
                 fresh_world).1 = Ok (pdb_path "1abc")) by (vm_compute; reflexivity).
  split; [exact H|].
  exact (Strike_get_pdb_second_call_is_noop example_cwd example_urlopen
           example_decode "1abc" fresh_world H).
Defined.


Lemma Strike_compute_leaves_existing_files_witness :
  files staged_world !! Strike.os_path_abspath example_cwd "strike" = None ∧
  dirs (Strike.evaluate example_cwd example_urlopen example_decode example_tool
          example_strike ["AC"; "AG"] ["1abc"; "1abc"] ["A"; "B"] staged_world).2
  = {[ Strike.os_path_abspath example_cwd "strike" ]} ∪ dirs staged_world.
Proof.
  assert (Hdir : files staged_world !! Strike.os_path_abspath example_cwd "strike"
                 = None) by reflexivity.
  split; [exact Hdir|].
  exact (proj1 (proj2 (proj2 (proj2 (proj2 (Strike_compute_leaves_existing_files
    example_cwd example_urlopen example_decode example_tool example_strike
    ["AC"; "AG"] ["1abc"; "1abc"] ["A"; "B"] staged_world))))) Hdir).
Defined.



(** ** Strike: the staging happens once *)



Example Strike_second_call_skips :
  let first := Strike.compute example_cwd example_urlopen example_decode example_tool
                 example_strike ["AC"; "AG"] ["1abc"; "1abc"] ["A"; "B"] fresh_world in
  let second := Strike.compute example_cwd example_urlopen example_decode example_tool
                  example_strike ["AC"; "AG"] ["1abc"; "1abc"] ["A"; "B"] first.2 in
  EvUrlopen "https://files.rcsb.org/download/1abc.pdb" ∈ trace first.2 ∧
  files second.2 = files first.2 ∧
  trace second.2 = trace first.2 ++ skip_events example_cwd example_strike.
Proof.
  cbv zeta.
  set (w1 := (Strike.compute example_cwd example_urlopen example_decode example_tool
                example_strike ["AC"; "AG"] ["1abc"; "1abc"] ["A"; "B"] fresh_world).2).
  assert (Hdir : files w1 !! Strike.os_path_abspath example_cwd "strike" = None)
    by (vm_compute; reflexivity).
  assert (Hc : is_Some (files w1 !! Strike.resolve example_cwd
                          (Strike.out_connection_path example_strike)))
    by (vm_compute; eauto).
  assert (Ha : is_Some (files w1 !! Strike.resolve example_cwd
                          (Strike.out_alignment_path example_strike)))
    by (vm_compute; eauto).
  pose proof (calls_skip example_cwd example_urlopen example_decode example_tool
    example_strike [(["AC"; "AG"], ["1abc"; "1abc"], ["A"; "B"])] w1 Hdir Hc Ha)
    as [Hf Ht].
  split_and!; [|exact Hf|].
  { apply list_elem_of_In. vm_compute. do 3 right. left. reflexivity. }
  rewrite <- (app_nil_r (skip_events _ _)). exact Ht.
Qed.

(** Under the root directory the staged lines name the structure files
    where [get_pdb] has put them. *)
Example Strike_staging_under_the_root :
  let out := Strike.compute "/" example_urlopen example_decode example_tool
               (Strike.init "/" "bin/strike") ["AC"] ["1abc"] ["A"] empty_world in
  out.1 = Ok 0%R ∧
  files out.2 !! "/strike/1abc.pdb" = Some "ATOM" ∧
  files out.2 !! "/strike/in.con"
  = Some ("1abc /strike/1abc.pdb A" +:+ String "010" EmptyString) ∧
  files out.2 !! "/strike/aln.fa"
  = Some (">1abc" +:+ String "010" EmptyString +:+ "AC" +:+ String "010" EmptyString) ∧
  dirs out.2 = {[ "/strike" ]} ∧
  List.last (trace out.2) (EvMakedirs "") = EvRun "/bin/strike" "/strike/in.con" "/strike/aln.fa".
Proof. cbv zeta. split_and!; vm_compute; reflexivity. Qed.

(** A regular file in the place of the staging directory: the call raises
    [FileExistsError] before anything else, whatever staging files there
    are. *)
Example Strike_blocked_by_a_file :
  Strike.compute example_cwd example_urlopen example_decode example_tool
    example_strike ["AC"; "AG"] ["1abc"; "1abc"] ["A"; "B"]
    (mkWorld {[ "/home/u/strike" := "not a directory" ]} ∅ [])
  = (Raise FileExistsError, mkWorld {[ "/home/u/strike" := "not a directory" ]} ∅ []).
Proof. by apply evaluate_blocked; vm_compute; eauto. Qed.

(** ** Star and the order of the rows *)

Lemma list_count_Permutation {A : Type} `{EqDecision A} (w : A) (l l' : list A) :
  l ≡ₚ l' → list_count w l = list_count w l'.
Proof. intros Hp. unfold list_count. by rewrite Hp. Qed.

Lemma is_majority_strict_max (col : list ascii) (c0 m : ascii) :
  c0 ∈ col →
  (∀ c, c ∈ col → c ≠ c0 → (list_count c col < list_count c0 col)%nat) →
  is_majority col m → m = c0.
Proof.
  intros Hc0 Hstrict Hm.
  destruct (decide (m = c0)) as [|Hne]; [done|exfalso].
  pose proof (is_majority_elem_of _ _ Hm) as Hin.
  destruct Hm as [Hmax _]. specialize (Hmax c0 Hc0).
  specialize (Hstrict m Hin Hne). lia.
Qed.

(** X20: when every column of a valid alignment has a single most frequent
    symbol (no tie), [Star.evaluate] gives the same score whatever the order
    of the rows; the substitution matrix need not be symmetric. *)
Theorem Star_evaluate_row_order_without_ties (m : ascii → ascii → Z)
    (sequences sequences' : list string) :
  valid_alignment sequences → sequences ≡ₚ sequences' →
  (∀ k, (k < alignment_length sequences)%nat →
        ∃ c0, c0 ∈ column sequences k ∧
              ∀ c, c ∈ column sequences k → c ≠ c0 →
                   (list_count c (column sequences k)
                    < list_count c0 (column sequences k))%nat) →
  Star.evaluate m sequences' = Star.evaluate m sequences.
Proof.
  intros Hv Hp Hties.
  destruct (valid_alignment_Permutation _ _ Hv Hp) as [Hv' HL].
  destruct (Star_evaluate_formula m sequences Hv) as (maj & Hmaj & ->).
  destruct (Star_evaluate_formula m sequences' Hv') as (maj' & Hmaj' & ->).
  rewrite HL in *. f_equal. f_equal.
  apply map_ext_in. intros k Hk. apply in_seq in Hk.
  assert (Hcol : column sequences k ≡ₚ column sequences' k)
    by (unfold column; by apply map_Permutation).
  destruct (Hties k ltac:(lia)) as (c0 & Hc0 & Hstrict).
  assert (E : maj k = c0).
  { apply (is_majority_strict_max (column sequences k)); [done..|].
    apply Hmaj. lia. }
  assert (E' : maj' k = c0).
  { apply (is_majority_strict_max (column sequences' k)).
    - by rewrite <- Hcol.
    - intros c Hc Hne. rewrite <- !(list_count_Permutation _ _ _ Hcol).
      apply Hstrict; [by rewrite Hcol|exact Hne].
    - apply Hmaj'. lia. }
  rewrite E, E'. apply sumZ_Permutation. apply map_Permutation. by symmetry.
Qed.

Lemma Star_evaluate_row_order_without_ties_witness :
  valid_alignment ["A"; "A"; "C"] ∧ ["A"; "A"; "C"] ≡ₚ ["C"; "A"; "A"] ∧
  Star.evaluate (λ a b, if decide (a = b) then 2%Z else (-1)%Z) ["C"; "A"; "A"]
  = Star.evaluate (λ a b, if decide (a = b) then 2%Z else (-1)%Z) ["A"; "A"; "C"].
Proof.
  assert (Hv : valid_alignment ["A"; "A"; "C"])
    by (split; [discriminate|repeat constructor]).
  assert (Hp : ["A"; "A"; "C"] ≡ₚ ["C"; "A"; "A"]).
  { etrans; [apply perm_skip, perm_swap|apply perm_swap]. }
  split; [exact Hv|]. split; [exact Hp|].
  apply (Star_evaluate_row_order_without_ties _ _ _ Hv Hp).
  intros k Hk. change (alignment_length ["A"; "A"; "C"]) with 1%nat in Hk.
  assert (k = 0)%nat as -> by lia.
  exists "A"%char. split; [left|].
  intros c Hc Hne. vm_compute in Hc.
  repeat (apply elem_of_cons in Hc as [->|Hc]; [try done; vm_compute; lia|]).
  by apply not_elem_of_nil in Hc.
Defined.
